(** * bobarr: the Jackett search service

    A shallow embedding of [packages/api/src/modules/jackett/jackett.service.ts]:
    query generation for a movie, the per-indexer pipeline (deduplication,
    normalisation, scoring, acceptance filter) and the ranking and selection
    done by [search].

    JavaScript strings are sequences of UTF-16 code units ([list N]); numbers
    that the service handles (sizes, seeders, peers, scores) are integers
    ([Z]); a value that may be [undefined] or [null] is an [option]; an
    [async] function is the completion it ends with ([Return] or [Throw]),
    given how the promises it awaits stand.

    The first part holds the definitions: the strings and patterns of the
    language, the functions of lodash that the service calls, the service
    itself, and the notions and inputs that the statements use.  The second
    part holds the properties: [parseTag], the acceptance filter,
    deduplication, the download link, the ranking, selection and the error
    policy, transliteration and script detection, the episode test of season
    requests, the queries of a movie, and runs on concrete inputs. *)

From Stdlib Require Import String Ascii.
From Stdlib Require Import List ZArith NArith Lia Bool.
From Stdlib Require Import Permutation Sorted.
From Stdlib Require DecimalString.
Import ListNotations.

Set Implicit Arguments.

(** ** JavaScript strings *)

Definition char := N.
Definition jsstring := list char.

Module Js.

(** A string literal of the source, as its code units (ASCII literals only). *)
Definition lit (s : String.string) : jsstring :=
  List.map N_of_ascii (list_ascii_of_string s).

Fixpoint eqb (a b : jsstring) : bool :=
  match a, b with
  | [], [] => true
  | x :: a', y :: b' => N.eqb x y && eqb a' b'
  | _, _ => false
  end.

(** Truthiness of a string: every string but the empty one. *)
Definition truthy (s : jsstring) : bool :=
  match s with [] => false | _ :: _ => true end.

(** Truthiness of a string-valued property that may be absent. *)
Definition truthy_opt (v : option jsstring) : bool :=
  match v with Some s => truthy s | None => false end.

(** [a || b] on such values. *)
Definition or_else (a b : option jsstring) : option jsstring :=
  if truthy_opt a then a else b.

(** [Array.prototype.includes] / membership by [===] on strings. *)
Definition mem (x : jsstring) (l : list jsstring) : bool :=
  existsb (eqb x) l.

(** White space and line terminators of ECMAScript: what [\s] matches and
    what [String.prototype.trim] removes. *)
Definition is_space (c : char) : bool :=
  ((9 <=? c) && (c <=? 13) || (c =? 32) || (c =? 160) || (c =? 5760)
   || (8192 <=? c) && (c <=? 8202) || (c =? 8232) || (c =? 8233)
   || (c =? 8239) || (c =? 8287) || (c =? 12288) || (c =? 65279))%N.

(** [\d] *)
Definition is_digit (c : char) : bool := ((48 <=? c) && (c <=? 57))%N.

Fixpoint trimStart (s : jsstring) : jsstring :=
  match s with
  | c :: s' => if is_space c then trimStart s' else s
  | [] => []
  end.

Definition trim (s : jsstring) : jsstring :=
  rev (trimStart (rev (trimStart s))).

(** [s.split(sep)] for a one-character separator: never an empty array. *)
Fixpoint split (sep : char) (s : jsstring) : list jsstring :=
  match s with
  | [] => [[]]
  | c :: s' =>
      if N.eqb c sep then [] :: split sep s'
      else match split sep s' with
           | piece :: rest => (c :: piece) :: rest
           | [] => [[c]]
           end
  end.

(** [parts.join(sep)] *)
Fixpoint join (sep : jsstring) (parts : list jsstring) : jsstring :=
  match parts with
  | [] => []
  | [p] => p
  | p :: rest => p ++ sep ++ join sep rest
  end.

End Js.

(** ** Regular expressions

    The two patterns of the acceptance filter use literals, the classes [\d]
    and [\s], alternation, [?], [*] and [+].  [String.prototype.match] with a
    pattern that has no [g] flag is truthy exactly when some substring of the
    subject is in the language of the pattern, which is decided here with
    derivatives. *)

Module Regex.

Inductive t : Type :=
| Void
| Eps
| Chr (c : char)
| Class (p : char -> bool)
| Cat (r1 r2 : t)
| Alt (r1 r2 : t)
| Star (r : t).

Definition Plus (r : t) : t := Cat r (Star r).
Definition Opt (r : t) : t := Alt r Eps.

Fixpoint Lit (s : jsstring) : t :=
  match s with
  | [] => Eps
  | c :: s' => Cat (Chr c) (Lit s')
  end.

Fixpoint nullable (r : t) : bool :=
  match r with
  | Void => false
  | Eps => true
  | Chr _ => false
  | Class _ => false
  | Cat r1 r2 => nullable r1 && nullable r2
  | Alt r1 r2 => nullable r1 || nullable r2
  | Star _ => true
  end.

Fixpoint deriv (c : char) (r : t) : t :=
  match r with
  | Void => Void
  | Eps => Void
  | Chr d => if N.eqb c d then Eps else Void
  | Class p => if p c then Eps else Void
  | Cat r1 r2 =>
      if nullable r1 then Alt (Cat (deriv c r1) r2) (deriv c r2)
      else Cat (deriv c r1) r2
  | Alt r1 r2 => Alt (deriv c r1) (deriv c r2)
  | Star r1 => Cat (deriv c r1) (Star r1)
  end.

(** The whole of [s] is in the language of [r]. *)
Fixpoint accepts (r : t) (s : jsstring) : bool :=
  match s with
  | [] => nullable r
  | c :: s' => accepts (deriv c r) s'
  end.

(** Some prefix of [s] is in the language of [r]. *)
Fixpoint matches_at_start (r : t) (s : jsstring) : bool :=
  nullable r ||
  match s with
  | [] => false
  | c :: s' => matches_at_start (deriv c r) s'
  end.

(** [s.match(r)] is not [null]: the pattern matches at some position. *)
Fixpoint matches (r : t) (s : jsstring) : bool :=
  matches_at_start r s ||
  match s with
  | [] => false
  | _ :: s' => matches r s'
  end.

(** The language of a pattern, as a relation. *)
Inductive In_lang : t -> jsstring -> Prop :=
| L_eps : In_lang Eps []
| L_chr c : In_lang (Chr c) [c]
| L_class p c : p c = true -> In_lang (Class p) [c]
| L_cat r1 r2 u v : In_lang r1 u -> In_lang r2 v -> In_lang (Cat r1 r2) (u ++ v)
| L_alt_l r1 r2 u : In_lang r1 u -> In_lang (Alt r1 r2) u
| L_alt_r r1 r2 u : In_lang r2 u -> In_lang (Alt r1 r2) u
| L_star_nil r : In_lang (Star r) []
| L_star_cons r u v : In_lang r u -> In_lang (Star r) v -> In_lang (Star r) (u ++ v).

End Regex.

(** ** Data model *)

(** A raw hit of the backend ([JackettResult] of [jackett.dto]).  [Link] and
    [MagnetUri] may be absent. *)
Record JackettResult : Type := {
  Guid : jsstring;
  TrackerId : jsstring;
  Title : jsstring;
  Size : Z;
  Seeders : Z;
  Peers : Z;
  Link : option jsstring;
  MagnetUri : option jsstring;
  PublishDate : jsstring
}.

Record JackettIndexer : Type := {
  indexer_id : jsstring;
  indexer_title : jsstring
}.

(** The [Tag] entity: a name and a score. *)
Record Tag : Type := {
  tag_name : jsstring;
  tag_score : Z
}.

(** The [Quality] entity: a name, the keywords that select it and a score. *)
Record Quality : Type := {
  quality_name : jsstring;
  quality_match : list jsstring;
  quality_score : Z
}.

(** What [parseTag] and [parseQuality] return. *)
Record Scored : Type := {
  label : jsstring;
  score : Z
}.

(** The object built by [formatSearchResult]. *)
Record Candidate : Type := {
  normalizedTitle : jsstring;
  normalizedTitleParts : list jsstring;
  id : jsstring;
  indexer : jsstring;
  title : jsstring;
  quality : Scored;
  size : Z;
  seeders : Z;
  peers : Z;
  link : jsstring;
  downloadLink : option jsstring;
  tag : Scored;
  publishDate : jsstring
}.

(** An [Error] object: only its message is inspected. *)
Record JsError : Type := {
  message : jsstring
}.

(** ** Promises and completions *)

(** How a promise stands when the deadline of the fan-out is reached. *)
Inductive Settled (A : Type) : Type :=
| Fulfilled (a : A)
| Rejected (e : JsError)
| Pending.
Arguments Rejected {A} e.
Arguments Pending {A}.

(** What a [throw] carries: an array of errors, one error, or the [TypeError]
    raised by reading a property of [undefined]. *)
Inductive Thrown : Type :=
| ThrownErrors (errors : list JsError)
| ThrownError (e : JsError)
| ThrownTypeError.

(** The completion of an [async] function. *)
Inductive Completion (A : Type) : Type :=
| Return (a : A)
| Throw (t : Thrown).
Arguments Throw {A} t.

(** ** lodash: [uniq], [uniqBy], [orderBy] *)

Module Lodash.

(** [baseUniq]: walk the array, keep an element when the value computed by
    the iteratee has not been seen yet. *)
Fixpoint baseUniq {A : Type} (iteratee : A -> jsstring) (seen : list jsstring)
    (array : list A) : list A :=
  match array with
  | [] => []
  | value :: rest =>
      let computed := iteratee value in
      if Js.mem computed seen then baseUniq iteratee seen rest
      else value :: baseUniq iteratee (computed :: seen) rest
  end.

Definition uniq (array : list jsstring) : list jsstring :=
  baseUniq (fun value => value) [] array.

Definition uniqBy {A : Type} (array : list A) (iteratee : A -> jsstring) : list A :=
  baseUniq iteratee [] array.

(** [compareAscending] on two strings: order of the code units. *)
Fixpoint compareAscending_string (value other : jsstring) : comparison :=
  match value, other with
  | [], [] => Eq
  | [], _ :: _ => Lt
  | _ :: _, [] => Gt
  | x :: value', y :: other' =>
      match N.compare x y with
      | Eq => compareAscending_string value' other'
      | c => c
      end
  end.

(** [compareAscending] on two numbers. *)
Definition compareAscending_number (value other : Z) : comparison :=
  Z.compare value other.

(** [Array.prototype.sort(comparer)]: the comparer answers [Lt] (negative)
    when its first argument goes first, [Gt] (positive) when it goes last. *)
Fixpoint sort_insert {A : Type} (comparer : A -> A -> comparison) (x : A)
    (sorted : list A) : list A :=
  match sorted with
  | [] => [x]
  | y :: rest =>
      match comparer x y with
      | Gt => y :: sort_insert comparer x rest
      | _ => x :: sorted
      end
  end.

Definition sort {A : Type} (comparer : A -> A -> comparison) (array : list A)
    : list A :=
  fold_right (sort_insert comparer) [] array.

(** [result.map((value, index) => ...)] *)
Fixpoint mapi_from {A B : Type} (f : A -> Z -> B) (index : Z) (l : list A) : list B :=
  match l with
  | [] => []
  | value :: rest => f value index :: mapi_from f (index + 1) rest
  end.

End Lodash.

(** ** Transliteration and script detection *)

(** The literal from which [toLatin] builds its Cyrillic alphabet, as code
    units: the letters of the source, separated by [_] (95). *)
Definition cyrillic_literal : jsstring :=
  [1040; 95; 1041; 95; 1042; 95; 1043; 95; 1044; 95; 1026; 95; 1045; 95;
    1025; 95; 1046; 95; 1047; 95; 1048; 95; 1049; 95; 1032; 95; 1050; 95;
    1051; 95; 1033; 95; 1052; 95; 1053; 95; 1034; 95; 1054; 95; 1055; 95;
    1056; 95; 1057; 95; 1058; 95; 1035; 95; 1059; 95; 1060; 95; 1061; 95;
    1062; 95; 1063; 95; 1039; 95; 1064; 95; 1065; 95; 1066; 95; 1067; 95;
    1068; 95; 1069; 95; 1070; 95; 1071; 95; 1072; 95; 1073; 95; 1074; 95;
    1075; 95; 1076; 95; 1106; 95; 1077; 95; 1105; 95; 1078; 95; 1079; 95;
    1080; 95; 1081; 95; 1112; 95; 1082; 95; 1083; 95; 1113; 95; 1084; 95;
    1085; 95; 1114; 95; 1086; 95; 1087; 95; 1088; 95; 1089; 95; 1090; 95;
    1115; 95; 1091; 95; 1092; 95; 1093; 95; 1094; 95; 1095; 95; 1119; 95;
    1096; 95; 1097; 95; 1098; 95; 1099; 95; 1100; 95; 1101; 95; 1102; 95;
    1103]%N.

(** The literal of the Latin alphabet, in the same order: most letters are one
    code unit, [Lj], [Nj] and [Dz-caron] are two. *)
Definition latin_literal : jsstring :=
  [65; 95; 66; 95; 86; 95; 71; 95; 68; 95; 272; 95; 69; 95; 203; 95; 381;
    95; 90; 95; 73; 95; 74; 95; 74; 95; 75; 95; 76; 95; 76; 106; 95; 77; 95;
    78; 95; 78; 106; 95; 79; 95; 80; 95; 82; 95; 83; 95; 84; 95; 262; 95;
    85; 95; 70; 95; 72; 95; 67; 95; 268; 95; 68; 382; 95; 352; 95; 348; 95;
    698; 95; 89; 95; 697; 95; 200; 95; 219; 95; 194; 95; 97; 95; 98; 95;
    118; 95; 103; 95; 100; 95; 273; 95; 101; 95; 235; 95; 382; 95; 122; 95;
    105; 95; 106; 95; 106; 95; 107; 95; 108; 95; 108; 106; 95; 109; 95; 110;
    95; 110; 106; 95; 111; 95; 112; 95; 114; 95; 115; 95; 116; 95; 263; 95;
    117; 95; 102; 95; 104; 95; 99; 95; 269; 95; 100; 382; 95; 353; 95; 349;
    95; 698; 95; 121; 95; 697; 95; 232; 95; 251; 95; 226]%N.

Definition cyrillic : list jsstring := Js.split 95%N cyrillic_literal.
Definition latin : list jsstring := Js.split 95%N latin_literal.

(** [array.indexOf(x)], counting from [from]; [-1] when absent. *)
Fixpoint indexOf (array : list jsstring) (x : jsstring) (from : Z) : Z :=
  match array with
  | [] => (-1)%Z
  | y :: rest => if Js.eqb y x then from else indexOf rest x (from + 1)%Z
  end.

(** [toLatin]: every code unit found in [cyrillic] is replaced by the entry of
    [latin] at the same index; [!~index] holds exactly when [index] is [-1]. *)
Definition toLatin (toTranslate : jsstring) : jsstring :=
  concat
    (List.map
       (fun char : char =>
          let index := indexOf cyrillic [char] 0%Z in
          if Z.eqb (Z.lnot index) 0%Z then [char]
          else nth (Z.to_nat index) latin [])
       toTranslate).

(** Code points with [Script=Latin] (Unicode 14.0, Scripts.txt), as inclusive
    ranges. *)
Definition script_latin_ranges : list (N * N) :=
  [ (0x41, 0x5A); (0x61, 0x7A); (0xAA, 0xAA); (0xBA, 0xBA); (0xC0, 0xD6);
    (0xD8, 0xF6); (0xF8, 0x2B8); (0x2E0, 0x2E4); (0x1D00, 0x1D25);
    (0x1D2C, 0x1D5C); (0x1D62, 0x1D65); (0x1D6B, 0x1D77); (0x1D79, 0x1DBE);
    (0x1E00, 0x1EFF); (0x2071, 0x2071); (0x207F, 0x207F); (0x2090, 0x209C);
    (0x212A, 0x212B); (0x2132, 0x2132); (0x214E, 0x214E); (0x2160, 0x2188);
    (0x2C60, 0x2C7F); (0xA722, 0xA787); (0xA78B, 0xA7CA); (0xA7D0, 0xA7D1);
    (0xA7D3, 0xA7D3); (0xA7D5, 0xA7D9); (0xA7F2, 0xA7FF); (0xAB30, 0xAB5A);
    (0xAB5C, 0xAB64); (0xAB66, 0xAB69); (0xFB00, 0xFB06); (0xFF21, 0xFF3A);
    (0xFF41, 0xFF5A); (0x10780, 0x10785); (0x10787, 0x107B0);
    (0x107B2, 0x107BA); (0x1DF00, 0x1DF1E) ]%N.

Definition in_range (c : N) (r : N * N) : bool :=
  (N.leb (fst r) c && N.leb c (snd r))%bool.

(** [\p{Script=Latin}] *)
Definition script_latin (c : N) : bool :=
  existsb (in_range c) script_latin_ranges.

(** The characters listed after the script in the class of [isLatin]:
    [0-9 .,\/#!$%\^&\*;:{}=\-_`~()+?@]. *)
Definition latin_extras : jsstring :=
  Js.lit " .,/#!$%^&*;:{}=-_`~()+?@".

(** The negated class [[^\p{Script=Latin}0-9 ...]]. *)
Definition hasNonLatin_class (c : N) : bool :=
  negb (script_latin c || Js.is_digit c || existsb (N.eqb c) latin_extras).

(** With the [u] flag the pattern is matched against code points: a high
    surrogate followed by a low one is one code point. *)
Fixpoint codePoints (s : jsstring) : list N :=
  match s with
  | [] => []
  | hi :: rest =>
      match rest with
      | lo :: rest' =>
          if ((0xD800 <=? hi) && (hi <=? 0xDBFF)
              && (0xDC00 <=? lo) && (lo <=? 0xDFFF))%N
          then (0x10000 + (hi - 0xD800) * 0x400 + (lo - 0xDC00))%N
               :: codePoints rest'
          else hi :: codePoints rest
      | [] => [hi]
      end
  end.

Definition hasNonLatin : Regex.t := Regex.Class hasNonLatin_class.

(** [isLatin]: [!hasNonLatin.test(title)]. *)
Definition isLatin (title : jsstring) : bool :=
  negb (Regex.matches hasNonLatin (codePoints title)).

(** The query list that [searchMovie] hands to [search]; [year] is the
    release year formatted as [YYYY]. *)
Definition searchMovie_queries (movie_title movie_originalTitle year : jsstring)
    : list jsstring :=
  let queries := [movie_title ++ Js.lit " " ++ year] in
  let translatedOriginal := toLatin movie_originalTitle in
  if isLatin translatedOriginal
  then queries ++ [translatedOriginal ++ Js.lit " " ++ year]
  else queries.

(** ** The collaborators of the service

    What the service is given and does not define: the lowercasing of the
    language, [sanitize] of [src/utils/sanitize] (not among the sources at
    hand: the service only passes titles through it), the answers of the
    backend, the stored parameters, and how the task of each indexer ends. *)
Class Host : Type := {
  (** [String.prototype.toLowerCase] *)
  toLowerCase : jsstring -> jsstring;
  sanitize : jsstring -> jsstring;
  (** What the backend answers to one query of one indexer: the [Results] of
      the response, or [None] when the request throws. *)
  request : option JackettIndexer -> jsstring -> option (list JackettResult);
  (** The quality rules and the tags stored in the parameters. *)
  qualityParams : list Quality;
  preferredTags : list Tag;
  (** How the task of an indexer stands at the deadline: it has completed, it
      has failed with an error (reading the parameters throws), or it is
      still running. *)
  fate : JackettIndexer -> Settled unit
}.

(** ** The search service *)

Section JackettService.

Context {host : Host}.

(** [array.find(predicate)] is [List.find]; a found string is then read as a
    condition, so an empty string counts as not found. *)
Definition parseTag (normalizedTitle : list jsstring) (preferredTags : list Tag)
    : Scored :=
  let tagMatch :=
    find
      (fun tag =>
         Js.truthy_opt
           (find (fun part => Js.eqb part (toLowerCase (tag_name tag)))
                 normalizedTitle))
      preferredTags in
  let unknownScore :=
    if (0 <? Z.of_nat (length preferredTags))%Z then 0%Z else 1%Z in
  match tagMatch with
  | Some tagMatch => {| label := tag_name tagMatch; score := tag_score tagMatch |}
  | None => {| label := Js.lit "unknown"; score := unknownScore |}
  end.

Definition parseQuality (normalizedTitle : list jsstring)
    (qualityParams : list Quality) : Scored :=
  let qualityMatch :=
    find
      (fun quality =>
         existsb
           (fun keyword =>
              Js.truthy_opt
                (find (fun part => Js.eqb part (toLowerCase keyword))
                      normalizedTitle))
           (quality_match quality))
      qualityParams in
  match qualityMatch with
  | Some qualityMatch =>
      {| label := quality_name qualityMatch; score := quality_score qualityMatch |}
  | None => {| label := Js.lit "unknown"; score := 0%Z |}
  end.

(** [normalizedTitle.split(' ').filter((str) => str && str.trim())] *)
Definition titleParts (normalizedTitle : jsstring) : list jsstring :=
  filter (fun str => Js.truthy str && Js.truthy (Js.trim str))
         (Js.split 32%N normalizedTitle).

Definition formatSearchResult (result : JackettResult)
    (qualityParams : list Quality) (preferredTags : list Tag) : Candidate :=
  let normalizedTitle := sanitize (Title result) in
  let normalizedTitleParts := titleParts normalizedTitle in
  {| normalizedTitle := normalizedTitle;
     normalizedTitleParts := normalizedTitleParts;
     id := Guid result;
     indexer := TrackerId result;
     title := Title result;
     quality := parseQuality normalizedTitleParts qualityParams;
     size := Size result;
     seeders := Seeders result;
     peers := Peers result;
     link := Guid result;
     downloadLink := Js.or_else (MagnetUri result) (Link result);
     tag := parseTag normalizedTitleParts preferredTags;
     publishDate := PublishDate result |}.

(** [/e\d+|episode|episode\d+|ep|ep\d+/] *)
Definition episodePattern : Regex.t :=
  let digits := Regex.Plus (Regex.Class Js.is_digit) in
  Regex.Alt (Regex.Cat (Regex.Lit (Js.lit "e")) digits)
    (Regex.Alt (Regex.Lit (Js.lit "episode"))
       (Regex.Alt (Regex.Cat (Regex.Lit (Js.lit "episode")) digits)
          (Regex.Alt (Regex.Lit (Js.lit "ep"))
             (Regex.Cat (Regex.Lit (Js.lit "ep")) digits)))).

(** [/ep?\d+\s*ep?\d+/] *)
Definition episodeRangePattern : Regex.t :=
  let digits := Regex.Plus (Regex.Class Js.is_digit) in
  let e_number :=
    Regex.Cat (Regex.Chr 101%N) (Regex.Cat (Regex.Opt (Regex.Chr 112%N)) digits) in
  Regex.Cat e_number (Regex.Cat (Regex.Star (Regex.Class Js.is_space)) e_number).

(** [result.size < maxSize], where [maxSize] is a number or [Infinity]
    ([None], the default of [searchIndexer]). *)
Definition below (n : Z) (maxSize : option Z) : bool :=
  match maxSize with
  | Some m => (n <? m)%Z
  | None => true
  end.

Definition hasAcceptableSize (maxSize : option Z) (result : Candidate) : bool :=
  below (size result) maxSize.

Definition hasSeeders (result : Candidate) : bool :=
  ((0 <=? seeders result) && (peers result <? seeders result))%Z.

Definition hasTag (result : Candidate) : bool :=
  (0 <? score (tag result))%Z.

Definition isEpisode (result : Candidate) : bool :=
  existsb
    (fun titlePart =>
       Regex.matches episodePattern titlePart
       && negb (Regex.matches episodeRangePattern (normalizedTitle result)))
    (normalizedTitleParts result).

(** The callback of the last [filter] of [searchIndexer]. *)
Definition acceptable (maxSize : option Z) (isSeason withoutFilter : bool)
    (result : Candidate) : bool :=
  if withoutFilter then true
  else if isSeason
       then hasAcceptableSize maxSize result && hasSeeders result
            && negb (isEpisode result)
       else hasAcceptableSize maxSize result && hasSeeders result
            && hasTag result.

(** The options object of [search] and [searchIndexer]; an absent property is
    [None].  [type] only selects the quality rules, which are an argument
    here. *)
Record Options : Type := {
  maxSize : option Z;
  isSeason : option bool;
  withoutFilter : option bool
}.

Definition or_default {A : Type} (v : option A) (d : A) : A :=
  match v with Some a => a | None => d end.

(** [result.Link || result.MagnetUri] as a condition. *)
Definition hasLink (result : JackettResult) : bool :=
  Js.truthy_opt (Js.or_else (Link result) (MagnetUri result)).

(** [rawResults]: one answer per distinct query, [[]] for a failed request. *)
Definition rawResults (queries : list jsstring) (indexer : option JackettIndexer)
    : list (list JackettResult) :=
  List.map
    (fun query =>
       match request indexer query with
       | Some data => data
       | None => []
       end)
    (Lodash.uniq queries).

Definition searchIndexer (queries : list jsstring)
    (indexer : option JackettIndexer) (opts : Options) : list Candidate :=
  let maxSize := maxSize opts in
  let isSeason := or_default (isSeason opts) false in
  let withoutFilter := or_default (withoutFilter opts) false in
  let results :=
    filter (acceptable maxSize isSeason withoutFilter)
      (List.map
         (fun result => formatSearchResult result qualityParams preferredTags)
         (filter hasLink
            (Lodash.uniqBy (concat (rawResults queries indexer)) Guid))) in
  results.

(** *** Ranking: [orderBy(flattenIndexers, ['indexer', 'tag.score',
    'quality.score', 'seeders'], ['desc', 'desc', 'desc', 'desc'])] *)

(** lodash pairs every element with the values of the four iteratees and with
    its position in the collection. *)
Record SortEntry : Type := {
  criteria : jsstring * Z * Z * Z;
  index : Z;
  value : Candidate
}.

Definition criteria_of (c : Candidate) : jsstring * Z * Z * Z :=
  (indexer c, score (tag c), score (quality c), seeders c).

(** One step of the loop of [compareMultiple] for a ['desc'] key: a non-zero
    [result] is negated and returned, otherwise the next key decides. *)
Definition desc_then (result next : comparison) : comparison :=
  match result with
  | Eq => next
  | _ => CompOpp result
  end.

(** The four keys, without the final comparison of positions. *)
Definition compareCriteria (a b : jsstring * Z * Z * Z) : comparison :=
  let '(a_indexer, a_tag, a_quality, a_seeders) := a in
  let '(b_indexer, b_tag, b_quality, b_seeders) := b in
  desc_then (Lodash.compareAscending_string a_indexer b_indexer)
    (desc_then (Lodash.compareAscending_number a_tag b_tag)
       (desc_then (Lodash.compareAscending_number a_quality b_quality)
          (desc_then (Lodash.compareAscending_number a_seeders b_seeders) Eq))).

(** [compareMultiple]: when all keys are equal, [object.index - other.index]. *)
Definition compareMultiple (object other : SortEntry) : comparison :=
  match compareCriteria (criteria object) (criteria other) with
  | Eq => Z.compare (index object) (index other)
  | c => c
  end.

Definition orderBy (collection : list Candidate) : list Candidate :=
  let result :=
    Lodash.mapi_from
      (fun v i => {| criteria := criteria_of v; index := i; value := v |})
      0%Z collection in
  List.map value (Lodash.sort compareMultiple result).

(** *** The fan-out *)

Definition is_rejected {A : Type} (task : Settled A) : bool :=
  match task with Rejected _ => true | _ => false end.

Definition errors_of {A : Type} (tasks : list (Settled A)) : list JsError :=
  flat_map (fun task => match task with Rejected e => [e] | _ => [] end) tasks.

Definition successes_of {A : Type} (tasks : list (Settled A)) : list (option A) :=
  flat_map (fun task => match task with Fulfilled a => [Some a] | _ => [] end) tasks.

(** Modelled from the spec: [PromiseRaceAll] of [src/utils/promise-resolve],
    which is not part of the sources at hand.  The tasks run concurrently
    until all have completed or the deadline elapses; the successful results
    obtained by then are returned, the unresolved tasks are left out, one
    failure does not fail the batch, and when all tasks fail an aggregate
    failure carrying the list of the errors is raised. *)
Definition PromiseRaceAll {A : Type} (tasks : list (Settled A))
    : Completion (list (option A)) :=
  match tasks with
  | [] => Return []
  | _ :: _ =>
      if forallb is_rejected tasks then Throw (ThrownErrors (errors_of tasks))
      else Return (successes_of tasks)
  end.

(** [resolvedIndexers.filter((item) => Boolean(item))]: an array, even an
    empty one, is truthy; [undefined] is not. *)
Definition keep_truthy {A : Type} (items : list (option A)) : list A :=
  flat_map (fun item => match item with Some a => [a] | None => [] end) items.

Definition noResultsError : jsstring := Js.lit "NO_RESULTS".

(** The [catch] block of [search]. *)
Definition search_catch (error : Thrown) : Completion (list (option Candidate)) :=
  match error with
  | ThrownErrors [] => Throw ThrownTypeError
  | ThrownErrors (first :: _) =>
      if Js.eqb (message first) noResultsError then Return []
      else Throw (ThrownError first)
  | _ => Throw error
  end.

(** The [try] block of [search] from [PromiseRaceAll] on; [allIndexers] is
    how the promises of [searchIndexer] stand at the deadline.  The result is
    an array whose elements may be [undefined] ([None]): [sortedByBest[0]] of
    an empty array. *)
Definition search_settled (opts : Options)
    (allIndexers : list (Settled (list Candidate)))
    : Completion (list (option Candidate)) :=
  match PromiseRaceAll allIndexers with
  | Return resolvedIndexers =>
      let flattenIndexers := concat (keep_truthy resolvedIndexers) in
      let sortedByBest := orderBy flattenIndexers in
      Return (if or_default (withoutFilter opts) false
              then List.map Some sortedByBest
              else [nth_error sortedByBest 0])
  | Throw error => search_catch error
  end.

Definition search (indexers : list JackettIndexer) (queries : list jsstring)
    (opts : Options) : Completion (list (option Candidate)) :=
  let allIndexers :=
    List.map
      (fun indexer =>
         match fate indexer with
         | Fulfilled _ => Fulfilled (searchIndexer queries (Some indexer) opts)
         | Rejected e => Rejected e
         | Pending => Pending
         end)
      indexers in
  search_settled opts allIndexers.

End JackettService.

(** ** Notions used in the statements *)

(** [x] does not have to go after [y]. *)
Definition not_after {A : Type} (comparer : A -> A -> comparison) (x y : A) : Prop :=
  comparer x y <> Gt.

(** A comparison of keys that is a total order. *)
Record KeyOrder {K : Type} (cmp : K -> K -> comparison) : Prop := {
  ko_eq : forall a b, cmp a b = Eq -> a = b;
  ko_refl : forall a, cmp a a = Eq;
  ko_sym : forall a b, cmp b a = CompOpp (cmp a b);
  ko_trans : forall a b c, cmp a b = Lt -> cmp b c = Lt -> cmp a c = Lt
}.

Definition descending {K : Type} (cmp : K -> K -> comparison) (a b : K) : comparison :=
  CompOpp (cmp a b).

Definition lexicographic {K1 K2 : Type} (cmp1 : K1 -> K1 -> comparison)
    (cmp2 : K2 -> K2 -> comparison) (a b : K1 * K2) : comparison :=
  match cmp1 (fst a) (fst b) with
  | Eq => cmp2 (snd a) (snd b)
  | c => c
  end.

(** The comparison of two candidates by their four keys. *)
Definition compareCandidates (a b : Candidate) : comparison :=
  compareCriteria (criteria_of a) (criteria_of b).

(** The entry that [orderBy] builds for the candidate at position [i]. *)
Definition entry_of (v : Candidate) (i : Z) : SortEntry :=
  {| criteria := criteria_of v; index := i; value := v |}.

(** An entry of a collection whose positions start at [i]. *)
Definition well_formed_from (i : Z) (e : SortEntry) : Prop :=
  (i <= index e)%Z /\ criteria e = criteria_of (value e).

(** What [compareMultiple] compares: the keys, then the position. *)
Definition entry_key (e : SortEntry) : (jsstring * Z * Z * Z) * Z :=
  (criteria e, index e).

(** Descending order on the four keys, written out: [a] may stand before [b]
    when its indexer is the greater string or, the indexers being equal, its
    tag score is greater or, those being equal too, its quality score is
    greater or, with all three equal, it has at least as many seeders. *)
Definition ranks_no_lower (a b : Candidate) : Prop :=
  Lodash.compareAscending_string (indexer a) (indexer b) = Gt
  \/ (indexer a = indexer b
      /\ ((score (tag b) < score (tag a))%Z
          \/ (score (tag a) = score (tag b)
              /\ ((score (quality b) < score (quality a))%Z
                  \/ (score (quality a) = score (quality b)
                      /\ (seeders b <= seeders a)%Z))))).

(** The candidates whose four keys are [keys]. *)
Definition has_keys (keys : jsstring * Z * Z * Z) (c : Candidate) : bool :=
  let '(k_indexer, k_tag, k_quality, k_seeders) := keys in
  (Js.eqb (indexer c) k_indexer && (score (tag c) =? k_tag)
   && (score (quality c) =? k_quality) && (seeders c =? k_seeders))%Z.

(** The characters that occur in the Latin alphabet of the table. *)
Definition latin_output_chars : jsstring := concat latin.

(** The two outputs that are not letters of the Latin script: the modifier
    letters prime (for the soft sign) and double prime (for the hard sign). *)
Definition modifier_primes : jsstring := [0x2B9; 0x2BA]%N.

(** How often a character occurs in a string. *)
Definition occurrences (x : char) (s : jsstring) : nat :=
  count_occ N.eq_dec s x.

(** The tokens that the pattern is meant for: [e] or [ep] followed by a
    number, and [episode]. *)
Definition is_episode_indicator (part : jsstring) : Prop :=
  part = Js.lit "episode"
  \/ exists number,
       number <> [] /\ Forall (fun c => Js.is_digit c = true) number
       /\ (part = Js.lit "e" ++ number \/ part = Js.lit "ep" ++ number).

Definition episode_tokens : list jsstring :=
  List.map Js.lit ["show"; "s02"; "e05"; "1080p"]%string.

Definition season_pack_tokens : list jsstring :=
  List.map Js.lit ["show"; "s02"; "e01e10"; "1080p"]%string.


(** ** Inputs for the concrete runs *)

(** The Russian word for love, in Cyrillic. *)
Definition lyubov : jsstring := [1083; 1102; 1073; 1086; 1074; 1100]%N.

Module Run.

(** Lowercasing of strings whose only letters are ASCII. *)
Definition lowercase (s : jsstring) : jsstring :=
  List.map (fun c => if ((65 <=? c) && (c <=? 90))%N then (c + 32)%N else c) s.

Definition indexerA : JackettIndexer :=
  {| indexer_id := Js.lit "a"; indexer_title := Js.lit "Indexer A" |}.

Definition indexerB : JackettIndexer :=
  {| indexer_id := Js.lit "b"; indexer_title := Js.lit "Indexer B" |}.

Definition hit (guid tracker hit_title : jsstring) (hit_size hit_seeders hit_peers : Z)
    (hit_link hit_magnet : option jsstring) : JackettResult :=
  {| Guid := guid; TrackerId := tracker; Title := hit_title; Size := hit_size;
     Seeders := hit_seeders; Peers := hit_peers; Link := hit_link;
     MagnetUri := hit_magnet; PublishDate := Js.lit "2020-01-01" |}.

(** Indexer A has one release that is too large, indexer B one that is small
    enough, well seeded and carries a preferred tag. *)
Definition too_large : JackettResult :=
  hit (Js.lit "https://a/1") (Js.lit "a") (Js.lit "Movie 2020 2160p GROUP")
      5000 40 3 (Some (Js.lit "https://a/1.torrent")) None.

Definition good : JackettResult :=
  hit (Js.lit "https://b/7") (Js.lit "b") (Js.lit "Movie 2020 1080p GROUP")
      700 10 2 (Some (Js.lit "https://b/7.torrent")) (Some (Js.lit "magnet:?xt=7")).

Definition respond (indexer0 : option JackettIndexer) (query : jsstring)
    : option (list JackettResult) :=
  match indexer0 with
  | Some i => if Js.eqb (indexer_id i) (Js.lit "a") then Some [too_large]
              else Some [good]
  | None => Some [too_large; good]
  end.

Definition tags : list Tag := [ {| tag_name := Js.lit "GROUP"; tag_score := 5 |} ].

Definition qualities : list Quality :=
  [ {| quality_name := Js.lit "1080p"; quality_match := [Js.lit "1080p"];
       quality_score := 2 |} ].

Definition completes (indexer0 : JackettIndexer) : Settled unit := Fulfilled tt.

Definition automatic : Options :=
  {| maxSize := Some 1000%Z; isSeason := None; withoutFilter := None |}.

Definition manual : Options :=
  {| maxSize := None; isSeason := None; withoutFilter := Some true |}.

Definition queries : list jsstring := [Js.lit "Movie 2020"].

(** The collaborators of a run; titles are only lowercased by [sanitize]. *)
Definition host (fate0 : JackettIndexer -> Settled unit)
    (answers : option JackettIndexer -> jsstring -> option (list JackettResult))
    : Host :=
  {| toLowerCase := lowercase;
     sanitize := lowercase;
     request := answers;
     qualityParams := qualities;
     preferredTags := tags;
     fate := fate0 |}.

Definition services : Host := host completes respond.

Definition run_search (fate0 : JackettIndexer -> Settled unit)
    (answers : option JackettIndexer -> jsstring -> option (list JackettResult))
    (indexers : list JackettIndexer) (opts : Options)
    : Completion (list (option Candidate)) :=
  @search (host fate0 answers) indexers queries opts.

Definition candidate_of (hit0 : JackettResult) : Candidate :=
  @formatSearchResult services hit0 qualities tags.

Definition good_candidate : Candidate := candidate_of good.

(** Two indexers share a release: its identifier is the same on both. *)
Definition shared (tracker : jsstring) : JackettResult :=
  hit (Js.lit "magnet:?xt=9") tracker (Js.lit "Movie 2020 1080p GROUP")
      700 10 2 None (Some (Js.lit "magnet:?xt=9")).

Definition respond_shared (indexer0 : option JackettIndexer) (query : jsstring)
    : option (list JackettResult) :=
  match indexer0 with
  | Some i => Some [shared (indexer_id i)]
  | None => Some []
  end.

Definition fails_with (msg : jsstring) (indexer0 : JackettIndexer) : Settled unit :=
  Rejected {| message := msg |}.

End Run.

Definition movie_tokens : list jsstring :=
  List.map Js.lit ["movie"; "2020"; "1080p"; "group"]%string.

Definition tag_other : Tag := {| tag_name := Js.lit "Other"; tag_score := 7 |}.
Definition tag_group : Tag := {| tag_name := Js.lit "GROUP"; tag_score := 5 |}.
Definition tag_1080p : Tag := {| tag_name := Js.lit "1080P"; tag_score := 9 |}.

(** A hit without a link and without a magnet URI. *)
Definition no_link : JackettResult :=
  Run.hit (Js.lit "https://b/8") (Js.lit "b") (Js.lit "Movie 2020 720p GROUP")
          600 10 2 None (Some []).

(** Three candidates: two of indexer B with the same four keys, and one of
    indexer A with more seeders. *)
Definition first_of_b : Candidate :=
  Run.candidate_of (Run.hit (Js.lit "https://b/1") (Js.lit "b")
                        (Js.lit "Movie 2020 1080p GROUP") 700 10 2
                        (Some (Js.lit "https://b/1.torrent")) None).

Definition second_of_b : Candidate :=
  Run.candidate_of (Run.hit (Js.lit "https://b/2") (Js.lit "b")
                        (Js.lit "Movie 2020 1080p GROUP") 900 10 4
                        (Some (Js.lit "https://b/2.torrent")) None).

Definition one_of_a : Candidate :=
  Run.candidate_of (Run.hit (Js.lit "https://a/3") (Js.lit "a")
                        (Js.lit "Movie 2020 1080p GROUP") 800 99 1
                        (Some (Js.lit "https://a/3.torrent")) None).

(** Three releases of a show: one episode, the same episode with season and
    episode written as one word, and a pack of ten episodes. *)
Definition single_episode_hit : JackettResult :=
  Run.hit (Js.lit "https://b/5") (Js.lit "b") (Js.lit "Show S02 E05 1080p")
          700 10 2 (Some (Js.lit "https://b/5.torrent")) None.

Definition joined_episode_hit : JackettResult :=
  Run.hit (Js.lit "https://b/4") (Js.lit "b") (Js.lit "Show S02E05 1080p")
          700 10 2 (Some (Js.lit "https://b/4.torrent")) None.

Definition season_pack_hit : JackettResult :=
  Run.hit (Js.lit "https://b/6") (Js.lit "b") (Js.lit "Show S02 E01E10 1080p")
          700 10 2 (Some (Js.lit "https://b/6.torrent")) None.

Definition single_episode : Candidate := Run.candidate_of single_episode_hit.

Definition joined_episode : Candidate := Run.candidate_of joined_episode_hit.

Definition season_pack : Candidate := Run.candidate_of season_pack_hit.

(** A backend that lists the three releases, and a season request. *)
Definition respond_season (indexer0 : option JackettIndexer) (query : jsstring)
    : option (list JackettResult) :=
  Some [single_episode_hit; joined_episode_hit; season_pack_hit].

Definition season_services : Host := Run.host Run.completes respond_season.

Definition season_request : Options :=
  {| maxSize := Some 1000%Z; isSeason := Some true; withoutFilter := None |}.

(** ** The other entry points of the service *)

(** [String(n)] for an integer: the decimal digits, with a sign when
    negative. *)
Definition number_toString (n : Z) : jsstring :=
  Js.lit (DecimalString.NilZero.string_of_int (Z.to_int n)).

(** [s.replace(c, '')] for a one-character string [c]: the first occurrence
    is removed. *)
Fixpoint remove_first (c : char) (s : jsstring) : jsstring :=
  match s with
  | [] => []
  | d :: s' => if N.eqb d c then s' else d :: remove_first c s'
  end.

Section Queries.

(** [formatNumber] of [src/utils/format-number], which is not among the
    sources at hand: the service passes season and episode numbers through
    it. *)
Variable formatNumber : Z -> jsstring.

(** The six queries that [searchSeason] builds for one title. *)
Definition season_queries_of (seasonNumber : Z) (title0 : jsstring)
    : list jsstring :=
  [ title0 ++ Js.lit " S" ++ number_toString seasonNumber;
    title0 ++ Js.lit " S" ++ formatNumber seasonNumber;
    title0 ++ Js.lit " Season " ++ formatNumber seasonNumber;
    title0 ++ Js.lit " Sezona " ++ formatNumber seasonNumber;
    title0 ++ Js.lit " Saison " ++ formatNumber seasonNumber;
    title0 ++ Js.lit " e01-e" ].

(** [titles], after the transliterated original title has been pushed when
    it is Latin. *)
Definition titles_of (tvShow_title enTVShow_title tvShow_originalTitle : jsstring)
    : list jsstring :=
  let titles := [tvShow_title; enTVShow_title] in
  let translatedOriginal := toLatin tvShow_originalTitle in
  if isLatin translatedOriginal then titles ++ [translatedOriginal] else titles.

(** The query list that [searchSeason] hands to [search]. *)
Definition searchSeason_queries
    (tvShow_title enTVShow_title tvShow_originalTitle : jsstring)
    (seasonNumber : Z) : list jsstring :=
  let titles := titles_of tvShow_title enTVShow_title tvShow_originalTitle in
  concat
    (List.map (season_queries_of seasonNumber)
       (List.map (remove_first 33%N) (Lodash.uniq titles))).

(** The six queries that [searchEpisode] builds for one title; [s] and [e]
    are the formatted season and episode numbers. *)
Definition episode_queries_of (seasonNumber episodeNumber : Z) (title0 : jsstring)
    : list jsstring :=
  let s := formatNumber seasonNumber in
  let e := formatNumber episodeNumber in
  [ title0 ++ Js.lit " S" ++ s ++ Js.lit "E" ++ e;
    title0 ++ Js.lit " S" ++ number_toString seasonNumber ++ Js.lit "E" ++ e;
    title0 ++ Js.lit " S" ++ s ++ Js.lit ".E" ++ e;
    title0 ++ Js.lit " S" ++ number_toString seasonNumber ++ Js.lit ".E" ++ e;
    title0 ++ Js.lit " Season " ++ s ++ Js.lit " Episode " ++ e;
    title0 ++ Js.lit " Saison " ++ s ++ Js.lit " Episode " ++ e ].

(** The query list that [searchEpisode] hands to [search]. *)
Definition searchEpisode_queries
    (tvShow_title enTVShow_title tvShow_originalTitle : jsstring)
    (seasonNumber episodeNumber : Z) : list jsstring :=
  let titles := titles_of tvShow_title enTVShow_title tvShow_originalTitle in
  concat
    (List.map (episode_queries_of seasonNumber episodeNumber)
       (Lodash.uniq titles)).

Context {host : Host}.

(** [searchMovie], [searchSeason] and [searchEpisode] once the parameter
    [maxSize] and the titles have been read; [episodes] is
    [tvSeason.episodes.length]. *)
Definition searchMovie (indexers : list JackettIndexer) (maxSize : Z)
    (movie_title movie_originalTitle year : jsstring)
    : Completion (list (option Candidate)) :=
  search indexers (searchMovie_queries movie_title movie_originalTitle year)
    {| maxSize := Some maxSize; isSeason := None; withoutFilter := None |}.

Definition searchSeason (indexers : list JackettIndexer) (maxSize : Z)
    (tvShow_title enTVShow_title tvShow_originalTitle : jsstring)
    (seasonNumber : Z) (episodes : nat)
    : Completion (list (option Candidate)) :=
  search indexers
    (searchSeason_queries tvShow_title enTVShow_title tvShow_originalTitle
       seasonNumber)
    {| maxSize := Some (maxSize * Z.of_nat episodes)%Z;
       isSeason := Some true; withoutFilter := None |}.

Definition searchEpisode (indexers : list JackettIndexer) (maxSize : Z)
    (tvShow_title enTVShow_title tvShow_originalTitle : jsstring)
    (seasonNumber episodeNumber : Z)
    : Completion (list (option Candidate)) :=
  search indexers
    (searchEpisode_queries tvShow_title enTVShow_title tvShow_originalTitle
       seasonNumber episodeNumber)
    {| maxSize := Some maxSize; isSeason := None; withoutFilter := None |}.

End Queries.

(** ** Notions and inputs of the further properties *)

(** A string that holds [ep], or [e] followed by a digit. *)
Definition has_episode_mark (part : jsstring) : Prop :=
  (exists before rest, part = before ++ Js.lit "ep" ++ rest)
  \/ (exists before d rest,
        part = before ++ 101%N :: d :: rest /\ Js.is_digit d = true).

Section FurtherNotions.

Context {host : Host}.

(** The candidates that the indexers contribute to a search, in the order of
    the indexers. *)
Definition all_candidates (indexers : list JackettIndexer)
    (queries : list jsstring) (opts : Options) : list Candidate :=
  concat
    (List.map (fun indexer0 => searchIndexer queries (Some indexer0) opts)
       indexers).

End FurtherNotions.

(** The options of the manual search with the same bounds. *)
Definition manual_of (opts : Options) : Options :=
  {| maxSize := maxSize opts; isSeason := isSeason opts;
     withoutFilter := Some true |}.

(** The hard and the soft sign of the Cyrillic alphabet, capital and small. *)
Definition cyrillic_signs : jsstring := [0x42A; 0x42C; 0x44A; 0x44C]%N.

(** A character that [isLatin] accepts and that is not a surrogate. *)
Definition latin_allowed (c : char) : bool :=
  negb (hasNonLatin_class c) && (c <? 0xD800)%N.

(** [e] or [ep] followed by a number. *)
Definition is_e_number (w : jsstring) : Prop :=
  exists number,
    number <> [] /\ Forall (fun c => Js.is_digit c = true) number
    /\ (w = Js.lit "e" ++ number \/ w = Js.lit "ep" ++ number).

(** A title that holds two such numbers, with nothing or white space between
    them. *)
Definition has_episode_range (title0 : jsstring) : Prop :=
  exists before first spaces second rest,
    title0 = before ++ first ++ spaces ++ second ++ rest
    /\ is_e_number first
    /\ Forall (fun c => Js.is_space c = true) spaces
    /\ is_e_number second.

(** [ep?\d+] *)
Definition e_number_pattern : Regex.t :=
  Regex.Cat (Regex.Chr 101%N)
    (Regex.Cat (Regex.Opt (Regex.Chr 112%N))
       (Regex.Plus (Regex.Class Js.is_digit))).

(** A host whose backend refuses every request. *)
Definition unreachable : Host := Run.host Run.completes (fun _ _ => None).

(** For the runs, numbers are padded to two digits. *)
Definition pad2 (n : Z) : jsstring :=
  if (n <? 10)%Z then Js.lit "0" ++ number_toString n else number_toString n.

(** A Russian title without signs, in Cyrillic. *)
Definition brat : jsstring := [1041; 1088; 1072; 1090]%N.

Definition quality_2160p : Quality :=
  {| quality_name := Js.lit "4K"; quality_match := [Js.lit "2160P"; Js.lit "UHD"];
     quality_score := 3 |}.

Definition quality_1080p : Quality :=
  {| quality_name := Js.lit "HD"; quality_match := [Js.lit "1080P"];
     quality_score := 2 |}.

(** A release of indexer B without the preferred tag. *)
Definition untagged : JackettResult :=
  Run.hit (Js.lit "https://b/9") (Js.lit "b") (Js.lit "Movie 2020 1080p")
          700 10 2 (Some (Js.lit "https://b/9.torrent")) None.

(** * Properties *)

(** ** Lists and strings *)

(** [Js.eqb] is [a === b] on strings. *)
Lemma jsstring_eqb_eq (a b : jsstring) : Js.eqb a b = true <-> a = b.
Proof.
  revert b; induction a as [|x a IH]; intros [|y b]; simpl;
    try (split; [discriminate | congruence]); try tauto.
  rewrite andb_true_iff, N.eqb_eq, IH. split.
  - intros [-> ->]; reflexivity.
  - intros E; inversion E; auto.
Qed.

Lemma jsstring_eqb_refl (a : jsstring) : Js.eqb a a = true.
Proof. apply jsstring_eqb_eq; reflexivity. Qed.

Lemma jsstring_eqb_neq (a b : jsstring) : Js.eqb a b = false <-> a <> b.
Proof.
  rewrite <- jsstring_eqb_eq. destruct (Js.eqb a b); split; congruence.
Qed.

Lemma jsstring_mem_In (x : jsstring) (l : list jsstring) :
  Js.mem x l = true <-> In x l.
Proof.
  unfold Js.mem. rewrite existsb_exists. split.
  - intros (y & Hy & E). apply jsstring_eqb_eq in E. subst; assumption.
  - intros H. exists x. split; [assumption | apply jsstring_eqb_refl].
Qed.

Lemma jsstring_mem_not_In (x : jsstring) (l : list jsstring) :
  Js.mem x l = false <-> ~ In x l.
Proof.
  rewrite <- jsstring_mem_In. destruct (Js.mem x l); split; congruence.
Qed.

Lemma find_all_false {A : Type} (p : A -> bool) (l : list A) :
  (forall x, In x l -> p x = false) -> find p l = None.
Proof.
  induction l as [|y l IH]; simpl; intros H; [reflexivity|].
  rewrite (H y (or_introl eq_refl)). apply IH. intros x Hx. apply H. now right.
Qed.

Lemma find_first_true {A : Type} (p : A -> bool) (before after : list A) (x : A) :
  (forall y, In y before -> p y = false) -> p x = true ->
  find p (before ++ x :: after) = Some x.
Proof.
  induction before as [|y before IH]; simpl; intros Hb Hx.
  - now rewrite Hx.
  - rewrite (Hb y (or_introl eq_refl)). apply IH; [|assumption].
    intros z Hz. apply Hb. now right.
Qed.

(** Looking a string up among non-empty strings and reading the outcome as a
    condition is plain membership. *)
Lemma find_truthy_mem (x : jsstring) (parts : list jsstring) :
  Forall (fun part => part <> []) parts ->
  Js.truthy_opt (find (fun part => Js.eqb part x) parts) = Js.mem x parts.
Proof.
  induction 1 as [|part parts Hne _ IH]; simpl; [reflexivity|].
  destruct (Js.eqb part x) eqn:E.
  - apply jsstring_eqb_eq in E. subst part. rewrite jsstring_eqb_refl. simpl.
    destruct x; [contradiction | reflexivity].
  - assert (Js.eqb x part = false) as ->.
    { apply jsstring_eqb_neq. apply jsstring_eqb_neq in E. congruence. }
    exact IH.
Qed.

Section ServiceFacts.

Context {host : Host}.

(** ** [parseTag] *)

Section ParseTag.

Variable tokens : list jsstring.
Hypothesis tokens_nonempty : Forall (fun part => part <> []) tokens.

Let matched (tag : Tag) : bool :=
  Js.truthy_opt
    (find (fun part => Js.eqb part (toLowerCase (tag_name tag))) tokens).

Lemma matched_In (tag : Tag) :
  matched tag = true <-> In (toLowerCase (tag_name tag)) tokens.
Proof.
  unfold matched. rewrite find_truthy_mem by assumption. apply jsstring_mem_In.
Qed.

Lemma matched_not_In (tag : Tag) :
  matched tag = false <-> ~ In (toLowerCase (tag_name tag)) tokens.
Proof.
  rewrite <- matched_In. destruct (matched tag); split; congruence.
Qed.

(** C5. On the token list of a candidate (tokens are never empty strings),
    [parseTag] answers score 1 when no tag rule is configured; score 0 when
    rules are configured and no token equals the lowercased name of any of
    them; and otherwise the name and the score of the first rule, in list
    order, whose lowercased name is one of the tokens. *)
Theorem parseTag_first_rule (preferredTags0 : list Tag) :
  (preferredTags0 = [] ->
   parseTag tokens preferredTags0 = {| label := Js.lit "unknown"; score := 1 |})
  /\ (preferredTags0 <> [] ->
      (forall tag, In tag preferredTags0 ->
                   ~ In (toLowerCase (tag_name tag)) tokens) ->
      parseTag tokens preferredTags0 = {| label := Js.lit "unknown"; score := 0 |})
  /\ (forall before tag after,
        preferredTags0 = before ++ tag :: after ->
        (forall earlier, In earlier before ->
                         ~ In (toLowerCase (tag_name earlier)) tokens) ->
        In (toLowerCase (tag_name tag)) tokens ->
        parseTag tokens preferredTags0
        = {| label := tag_name tag; score := tag_score tag |}).
Proof.
  split; [|split].
  - intros ->. reflexivity.
  - intros Hne Hnone. unfold parseTag.
    rewrite find_all_false.
    + destruct preferredTags0; [congruence | reflexivity].
    + intros tag Htag. apply matched_not_In. now apply Hnone.
  - intros before tag after -> Hbefore Htag. unfold parseTag.
    rewrite find_first_true; [reflexivity | |].
    + intros earlier He. apply matched_not_In. now apply Hbefore.
    + now apply matched_In.
Qed.

End ParseTag.

(** The title parts of a candidate are the token lists in question: none of
    them is the empty string. *)
Lemma titleParts_nonempty (normalizedTitle0 : jsstring) :
  Forall (fun part => part <> []) (titleParts normalizedTitle0).
Proof.
  apply Forall_forall. intros part H. unfold titleParts in H.
  apply filter_In in H. destruct H as [_ H].
  destruct part; [discriminate H | discriminate].
Qed.

Lemma formatSearchResult_parts (result : JackettResult)
    (qualities : list Quality) (tags : list Tag) :
  let c := formatSearchResult result qualities tags in
  tag c = parseTag (normalizedTitleParts c) tags
  /\ Forall (fun part => part <> []) (normalizedTitleParts c).
Proof.
  simpl. split; [reflexivity | apply titleParts_nonempty].
Qed.
(** ** The acceptance filter *)

(** The callback of the filter when the request is neither for a season nor
    manual: size, seeders and tag; an absent [maxSize] is [Infinity]. *)
Lemma acceptable_non_season (maxSize0 : option Z) (result : Candidate) :
  acceptable maxSize0 false false result = true
  <-> (match maxSize0 with
       | Some bound => (size result < bound)%Z
       | None => True
       end)
      /\ (0 <= seeders result)%Z
      /\ (peers result < seeders result)%Z
      /\ (0 < score (tag result))%Z.
Proof.
  unfold acceptable, hasAcceptableSize, hasSeeders, hasTag, below.
  rewrite !andb_true_iff, Z.leb_le, !Z.ltb_lt.
  destruct maxSize0 as [bound|]; [rewrite Z.ltb_lt|]; intuition.
Qed.

(** ** Deduplication *)

Lemma baseUniq_incl {A : Type} (iteratee : A -> jsstring) (array : list A) :
  forall seen x, In x (Lodash.baseUniq iteratee seen array) -> In x array.
Proof.
  induction array as [|value rest IH]; simpl; intros seen x H; [assumption|].
  destruct (Js.mem (iteratee value) seen).
  - right. eapply IH; eassumption.
  - destruct H as [->|H]; [now left | right; eapply IH; eassumption].
Qed.

Lemma baseUniq_unseen {A : Type} (iteratee : A -> jsstring) (array : list A) :
  forall seen x,
    In x (Lodash.baseUniq iteratee seen array) -> ~ In (iteratee x) seen.
Proof.
  induction array as [|value rest IH]; simpl; intros seen x H; [contradiction|].
  destruct (Js.mem (iteratee value) seen) eqn:E.
  - eapply IH; eassumption.
  - destruct H as [->|H]; [now apply jsstring_mem_not_In|].
    apply IH in H. intros Hin. apply H. now right.
Qed.

Lemma baseUniq_NoDup {A : Type} (iteratee : A -> jsstring) (array : list A) :
  forall seen, NoDup (List.map iteratee (Lodash.baseUniq iteratee seen array)).
Proof.
  induction array as [|value rest IH]; simpl; intros seen; [constructor|].
  destruct (Js.mem (iteratee value) seen); [apply IH|].
  simpl. constructor; [|apply IH].
  intros Hin. apply in_map_iff in Hin. destruct Hin as (x & Ex & Hx).
  apply baseUniq_unseen in Hx. apply Hx. left. now symmetry.
Qed.

(** The element kept for an identifier is the first one of the array that
    carries it. *)
Lemma baseUniq_first {A : Type} (iteratee : A -> jsstring) (g : jsstring)
    (array : list A) :
  forall seen, ~ In g seen ->
    find (fun x => Js.eqb (iteratee x) g) (Lodash.baseUniq iteratee seen array)
    = find (fun x => Js.eqb (iteratee x) g) array.
Proof.
  induction array as [|value rest IH]; simpl; intros seen Hg; [reflexivity|].
  destruct (Js.mem (iteratee value) seen) eqn:E.
  - apply jsstring_mem_In in E.
    assert (Js.eqb (iteratee value) g = false) as ->
      by (apply jsstring_eqb_neq; congruence).
    now apply IH.
  - simpl. destruct (Js.eqb (iteratee value) g) eqn:Eg; [reflexivity|].
    apply IH. apply jsstring_eqb_neq in Eg. intros [H|H]; [congruence | contradiction].
Qed.

Lemma baseUniq_fixed {A : Type} (iteratee : A -> jsstring) (array : list A) :
  forall seen,
    (forall x, In x array -> ~ In (iteratee x) seen) ->
    NoDup (List.map iteratee array) ->
    Lodash.baseUniq iteratee seen array = array.
Proof.
  induction array as [|value rest IH]; simpl; intros seen Hseen Hnd; [reflexivity|].
  inversion Hnd as [|? ? Hnotin Hnd']; subst.
  assert (Js.mem (iteratee value) seen = false) as ->
    by (apply jsstring_mem_not_In; apply Hseen; now left).
  f_equal. apply IH; [|assumption].
  intros x Hx [E|Hin].
  - apply Hnotin. rewrite E. now apply in_map.
  - apply (Hseen x); [now right | assumption].
Qed.

Lemma uniqBy_idempotent {A : Type} (iteratee : A -> jsstring) (array : list A) :
  Lodash.uniqBy (Lodash.uniqBy array iteratee) iteratee
  = Lodash.uniqBy array iteratee.
Proof.
  unfold Lodash.uniqBy. apply baseUniq_fixed.
  - intros x _ [].
  - apply baseUniq_NoDup.
Qed.

Lemma NoDup_map_filter {A B : Type} (f : A -> B) (p : A -> bool) (l : list A) :
  NoDup (List.map f l) -> NoDup (List.map f (filter p l)).
Proof.
  induction l as [|x l IH]; simpl; intros H; [constructor|].
  inversion H as [|? ? Hnotin H']; subst.
  destruct (p x); simpl; [|now apply IH].
  constructor; [|now apply IH].
  intros Hin. apply Hnotin. apply in_map_iff in Hin.
  destruct Hin as (y & E & Hy). apply filter_In in Hy. rewrite <- E.
  apply in_map. tauto.
Qed.

Lemma searchIndexer_ids (queries : list jsstring)
    (indexer0 : option JackettIndexer) (opts : Options) :
  NoDup (List.map id (searchIndexer queries indexer0 opts)).
Proof.
  unfold searchIndexer. apply NoDup_map_filter.
  rewrite map_map. simpl. apply NoDup_map_filter.
  apply baseUniq_NoDup.
Qed.

(** C6, as the code has it.  Deduplication is done by [searchIndexer], once
    per indexer: the identifiers of the candidates that one indexer
    contributes are pairwise distinct, the hit kept for an identifier is the
    first one that carries it, and deduplicating again changes nothing. *)
Theorem dedup_per_indexer (queries : list jsstring)
    (indexer0 : option JackettIndexer) (opts : Options) :
  NoDup (List.map id (searchIndexer queries indexer0 opts))
  /\ (forall (hits : list JackettResult) (g : jsstring),
        find (fun hit => Js.eqb (Guid hit) g) (Lodash.uniqBy hits Guid)
        = find (fun hit => Js.eqb (Guid hit) g) hits)
  /\ (forall hits : list JackettResult,
        Lodash.uniqBy (Lodash.uniqBy hits Guid) Guid = Lodash.uniqBy hits Guid).
Proof.
  split; [apply searchIndexer_ids|]. split.
  - intros hits g. unfold Lodash.uniqBy. apply baseUniq_first. intros [].
  - intros hits. apply uniqBy_idempotent.
Qed.

(** ** The download link *)

Lemma searchIndexer_from_linked_hit (queries : list jsstring)
    (indexer0 : option JackettIndexer) (opts : Options) (c : Candidate) :
  In c (searchIndexer queries indexer0 opts) ->
  exists result,
    In result (concat (rawResults queries indexer0))
    /\ c = formatSearchResult result qualityParams preferredTags
    /\ (Js.truthy_opt (Link result) = true \/ Js.truthy_opt (MagnetUri result) = true)
    /\ Js.truthy_opt (downloadLink c) = true
    /\ downloadLink c = (if Js.truthy_opt (MagnetUri result)
                         then MagnetUri result else Link result).
Proof.
  unfold searchIndexer. intros H.
  apply filter_In in H. destruct H as [H _].
  apply in_map_iff in H. destruct H as (result & <- & H).
  apply filter_In in H. destruct H as [H Hlink].
  apply baseUniq_incl in H.
  exists result. split; [assumption|]. split; [reflexivity|].
  unfold hasLink, Js.or_else in Hlink. simpl. unfold Js.or_else.
  destruct (Js.truthy_opt (Link result)) eqn:EL,
           (Js.truthy_opt (MagnetUri result)) eqn:EM;
    try rewrite EL in Hlink; try rewrite EM in Hlink;
    try discriminate; repeat split; auto.
Qed.

(** C10. Every candidate that [searchIndexer] returns, with or without the
    filter, was built from a raw hit of the answers that has a link or a
    magnet URI (present: a non-empty string), and its [downloadLink] is
    defined: it is the magnet URI of that hit when it is present, and its
    link otherwise.  The candidate of a raw hit that has neither is never
    returned. *)
Theorem searchIndexer_downloadLink (queries : list jsstring)
    (indexer0 : option JackettIndexer) (opts : Options) :
  (forall c, In c (searchIndexer queries indexer0 opts) ->
     exists result,
       In result (concat (rawResults queries indexer0))
       /\ c = formatSearchResult result qualityParams preferredTags
       /\ (Js.truthy_opt (Link result) = true
           \/ Js.truthy_opt (MagnetUri result) = true)
       /\ Js.truthy_opt (downloadLink c) = true
       /\ downloadLink c = (if Js.truthy_opt (MagnetUri result)
                            then MagnetUri result else Link result))
  /\ (forall result,
        Js.truthy_opt (Link result) = false ->
        Js.truthy_opt (MagnetUri result) = false ->
        ~ In (formatSearchResult result qualityParams preferredTags)
             (searchIndexer queries indexer0 opts)).
Proof.
  split.
  - intros c. apply searchIndexer_from_linked_hit.
  - intros result HL HM Hin.
    apply searchIndexer_from_linked_hit in Hin.
    destruct Hin as (_ & _ & _ & _ & Hdef & _).
    simpl in Hdef. unfold Js.or_else in Hdef.
    rewrite HM, HL in Hdef. discriminate.
Qed.

(** ** Sorting with a comparer *)

Section Sorting.

Variable A : Type.
Variable comparer : A -> A -> comparison.

Hypothesis comparer_sym : forall x y, comparer y x = CompOpp (comparer x y).
Hypothesis comparer_trans :
  forall x y z, comparer x y = Lt -> comparer y z = Lt -> comparer x z = Lt.
Hypothesis comparer_eq_l :
  forall x y z, comparer x y = Eq -> comparer x z = comparer y z.

Lemma not_after_trans (x y z : A) :
  not_after comparer x y -> not_after comparer y z -> not_after comparer x z.
Proof.
  unfold not_after. intros Hxy Hyz.
  destruct (comparer x y) eqn:Exy; [| |congruence].
  - now rewrite (comparer_eq_l z Exy).
  - destruct (comparer y z) eqn:Eyz; [| |congruence].
    + assert (comparer z y = Eq) as Ezy by (rewrite comparer_sym, Eyz; reflexivity).
      assert (comparer z x = Gt) as Ezx.
      { rewrite (comparer_eq_l x Ezy), comparer_sym, Exy. reflexivity. }
      rewrite comparer_sym, Ezx. simpl. congruence.
    + rewrite (comparer_trans Exy Eyz). congruence.
Qed.

Lemma sort_insert_Permutation (x : A) (sorted : list A) :
  Permutation (Lodash.sort_insert comparer x sorted) (x :: sorted).
Proof.
  induction sorted as [|y rest IH]; simpl; [reflexivity|].
  destruct (comparer x y); try reflexivity.
  rewrite IH. apply perm_swap.
Qed.

Lemma sort_Permutation (array : list A) :
  Permutation (Lodash.sort comparer array) array.
Proof.
  induction array as [|x array IH]; simpl; [reflexivity|].
  rewrite sort_insert_Permutation. now constructor.
Qed.

Lemma sort_insert_Forall (P : A -> Prop) (x : A) (sorted : list A) :
  P x -> Forall P sorted -> Forall P (Lodash.sort_insert comparer x sorted).
Proof.
  intros Hx Hs. eapply Permutation_Forall.
  - symmetry. apply sort_insert_Permutation.
  - now constructor.
Qed.

Lemma sort_Forall (P : A -> Prop) (array : list A) :
  Forall P array -> Forall P (Lodash.sort comparer array).
Proof.
  intros H. eapply Permutation_Forall; [|exact H].
  symmetry. apply sort_Permutation.
Qed.

Lemma sort_insert_sorted (x : A) (sorted : list A) :
  StronglySorted (not_after comparer) sorted ->
  StronglySorted (not_after comparer) (Lodash.sort_insert comparer x sorted).
Proof.
  induction 1 as [|y rest Hrest IH Hy]; simpl.
  - repeat constructor.
  - destruct (comparer x y) eqn:E.
    + constructor; [now constructor|].
      constructor; [unfold not_after; congruence|].
      eapply Forall_impl; [|exact Hy]. intros z Hz.
      apply not_after_trans with y; [unfold not_after; congruence | exact Hz].
    + constructor; [now constructor|].
      constructor; [unfold not_after; congruence|].
      eapply Forall_impl; [|exact Hy]. intros z Hz.
      apply not_after_trans with y; [unfold not_after; congruence | exact Hz].
    + constructor; [exact IH|].
      apply sort_insert_Forall; [|exact Hy].
      unfold not_after. rewrite comparer_sym, E. simpl. congruence.
Qed.

Lemma sort_sorted (array : list A) :
  StronglySorted (not_after comparer) (Lodash.sort comparer array).
Proof.
  induction array as [|x array IH]; simpl; [constructor|].
  now apply sort_insert_sorted.
Qed.

(** Sorting a sorted array leaves it as it is. *)
Lemma sort_fixed (array : list A) :
  StronglySorted (not_after comparer) array -> Lodash.sort comparer array = array.
Proof.
  induction 1 as [|x rest Hrest IH Hx]; simpl; [reflexivity|].
  rewrite IH. destruct rest as [|y rest']; [reflexivity|].
  simpl. inversion Hx as [|? ? Hxy _]; subst. unfold not_after in Hxy.
  destruct (comparer x y); congruence.
Qed.

Lemma sort_idempotent (array : list A) :
  Lodash.sort comparer (Lodash.sort comparer array) = Lodash.sort comparer array.
Proof. apply sort_fixed, sort_sorted. Qed.

(** Stability: elements that the comparer does not separate keep their
    relative order. *)
Lemma sort_insert_filter (p : A -> bool) (x : A) (sorted : list A) :
  (forall y, p x = true -> p y = true -> comparer x y = Eq) ->
  filter p (Lodash.sort_insert comparer x sorted) = filter p (x :: sorted).
Proof.
  intros Hp. induction sorted as [|y rest IH]; simpl; [reflexivity|].
  destruct (comparer x y) eqn:E; try reflexivity.
  simpl. rewrite IH. simpl.
  destruct (p x) eqn:Ex, (p y) eqn:Ey; try reflexivity.
  rewrite (Hp y eq_refl Ey) in E. discriminate.
Qed.

Lemma sort_filter (p : A -> bool) (array : list A) :
  (forall x y, p x = true -> p y = true -> comparer x y = Eq) ->
  filter p (Lodash.sort comparer array) = filter p array.
Proof.
  intros Hp. induction array as [|x array IH]; simpl; [reflexivity|].
  rewrite sort_insert_filter by (intros y; apply Hp).
  simpl. now rewrite IH.
Qed.

End Sorting.

(** ** The order of the ranking *)

Lemma KeyOrder_string : KeyOrder Lodash.compareAscending_string.
Proof.
  split.
  - induction a as [|x a IH]; intros [|y b]; simpl; try discriminate; auto.
    destruct (N.compare x y) eqn:E; try discriminate.
    apply N.compare_eq in E. intros H. f_equal; auto.
  - induction a as [|x a IH]; simpl; [reflexivity|].
    now rewrite N.compare_refl.
  - induction a as [|x a IH]; intros [|y b]; simpl; try reflexivity.
    rewrite (N.compare_antisym x y).
    destruct (N.compare x y); simpl; auto.
  - induction a as [|x a IH]; intros [|y b] [|z c]; simpl; try discriminate; auto.
    destruct (N.compare x y) eqn:Exy; try discriminate.
    + apply N.compare_eq in Exy. subst y.
      destruct (N.compare x z); try discriminate; auto. apply IH.
    + destruct (N.compare y z) eqn:Eyz; try discriminate.
      * apply N.compare_eq in Eyz. subst z. now rewrite Exy.
      * rewrite N.compare_lt_iff in *.
        assert (x < z)%N as H by lia. apply N.compare_lt_iff in H. now rewrite H.
Qed.

Lemma KeyOrder_number : KeyOrder Lodash.compareAscending_number.
Proof.
  unfold Lodash.compareAscending_number. split.
  - intros a b. apply Z.compare_eq.
  - apply Z.compare_refl.
  - intros a b. apply Z.compare_antisym.
  - intros a b c. rewrite !Z.compare_lt_iff. lia.
Qed.

Lemma KeyOrder_descending {K : Type} (cmp : K -> K -> comparison) :
  KeyOrder cmp -> KeyOrder (descending cmp).
Proof.
  intros [Heq Hrefl Hsym Htrans]. unfold descending. split.
  - intros a b H. apply Heq. destruct (cmp a b); simpl in H; congruence.
  - intros a. now rewrite Hrefl.
  - intros a b. now rewrite (Hsym a b).
  - intros a b c Hab Hbc.
    assert (cmp c b = Lt) as Hcb.
    { rewrite (Hsym b c). destruct (cmp b c); simpl in *; congruence. }
    assert (cmp b a = Lt) as Hba.
    { rewrite (Hsym a b). destruct (cmp a b); simpl in *; congruence. }
    rewrite (Hsym c a), (Htrans _ _ _ Hcb Hba). reflexivity.
Qed.

Lemma KeyOrder_lexicographic {K1 K2 : Type} (cmp1 : K1 -> K1 -> comparison)
    (cmp2 : K2 -> K2 -> comparison) :
  KeyOrder cmp1 -> KeyOrder cmp2 -> KeyOrder (lexicographic cmp1 cmp2).
Proof.
  intros [Heq1 Hrefl1 Hsym1 Htrans1] [Heq2 Hrefl2 Hsym2 Htrans2].
  unfold lexicographic. split.
  - intros [a1 a2] [b1 b2]; simpl.
    destruct (cmp1 a1 b1) eqn:E1; try discriminate.
    intros E2. f_equal; auto.
  - intros [a1 a2]; simpl. now rewrite Hrefl1.
  - intros [a1 a2] [b1 b2]; simpl. rewrite (Hsym1 a1 b1).
    destruct (cmp1 a1 b1); simpl; auto.
  - intros [a1 a2] [b1 b2] [c1 c2]; simpl.
    destruct (cmp1 a1 b1) eqn:Eab; try discriminate.
    + apply Heq1 in Eab. subst b1.
      destruct (cmp1 a1 c1); try discriminate; auto. apply Htrans2.
    + destruct (cmp1 b1 c1) eqn:Ebc; try discriminate.
      * apply Heq1 in Ebc. subst c1. now rewrite Eab.
      * now rewrite (Htrans1 _ _ _ Eab Ebc).
Qed.

Lemma compareCriteria_lexicographic (a b : jsstring * Z * Z * Z) :
  compareCriteria a b
  = lexicographic
      (lexicographic
         (lexicographic (descending Lodash.compareAscending_string)
                        (descending Lodash.compareAscending_number))
         (descending Lodash.compareAscending_number))
      (descending Lodash.compareAscending_number) a b.
Proof.
  destruct a as [[[a1 a2] a3] a4], b as [[[b1 b2] b3] b4].
  unfold compareCriteria, lexicographic, descending, desc_then; simpl.
  destruct (Lodash.compareAscending_string a1 b1); simpl; try reflexivity.
  destruct (Lodash.compareAscending_number a2 b2); simpl; try reflexivity.
  destruct (Lodash.compareAscending_number a3 b3); simpl; try reflexivity.
  destruct (Lodash.compareAscending_number a4 b4); reflexivity.
Qed.

Lemma KeyOrder_compareCriteria : KeyOrder compareCriteria.
Proof.
  pose proof (KeyOrder_descending KeyOrder_string) as Hs.
  pose proof (KeyOrder_descending KeyOrder_number) as Hn.
  pose proof (KeyOrder_lexicographic
                (KeyOrder_lexicographic (KeyOrder_lexicographic Hs Hn) Hn) Hn)
    as [Heq Hrefl Hsym Htrans].
  split.
  - intros a b. rewrite compareCriteria_lexicographic. apply Heq.
  - intros a. rewrite compareCriteria_lexicographic. apply Hrefl.
  - intros a b. rewrite !compareCriteria_lexicographic. apply Hsym.
  - intros a b c. rewrite !compareCriteria_lexicographic. apply Htrans.
Qed.

Lemma compareCandidates_sym (a b : Candidate) :
  compareCandidates b a = CompOpp (compareCandidates a b).
Proof. apply (ko_sym KeyOrder_compareCriteria). Qed.

Lemma compareCandidates_trans (a b c : Candidate) :
  compareCandidates a b = Lt -> compareCandidates b c = Lt ->
  compareCandidates a c = Lt.
Proof. apply (ko_trans KeyOrder_compareCriteria). Qed.

Lemma compareCandidates_eq_l (a b c : Candidate) :
  compareCandidates a b = Eq -> compareCandidates a c = compareCandidates b c.
Proof.
  unfold compareCandidates. intros H.
  apply (ko_eq KeyOrder_compareCriteria) in H. now rewrite H.
Qed.

Ltac order_facts :=
  first [ exact compareCandidates_sym
        | exact compareCandidates_trans
        | exact compareCandidates_eq_l ].

(** [orderBy] sorts entries that carry their position; the candidates come
    out as when they are sorted by their keys alone with the same insertion,
    which places a candidate before the ones it ties with. *)
Lemma entries_well_formed (collection : list Candidate) :
  forall i, Forall (well_formed_from i) (Lodash.mapi_from entry_of i collection).
Proof.
  induction collection as [|v rest IH]; simpl; intros i; constructor.
  - split; simpl; [lia | reflexivity].
  - eapply Forall_impl; [|apply (IH (i + 1)%Z)].
    intros e [Hi Hc]. split; [lia | assumption].
Qed.

Lemma sort_insert_entry (e : SortEntry) (sorted : list SortEntry) :
  criteria e = criteria_of (value e) ->
  Forall (well_formed_from (index e + 1)) sorted ->
  List.map value (Lodash.sort_insert compareMultiple e sorted)
  = Lodash.sort_insert compareCandidates (value e) (List.map value sorted).
Proof.
  intros He. induction 1 as [|y rest [Hi Hy] _ IH]; simpl; [reflexivity|].
  unfold compareMultiple, compareCandidates. rewrite He, Hy.
  destruct (compareCriteria (criteria_of (value e)) (criteria_of (value y))) eqn:E.
  - assert ((index e ?= index y)%Z = Lt) as -> by (apply Z.compare_lt_iff; lia).
    reflexivity.
  - reflexivity.
  - simpl. f_equal. exact IH.
Qed.

Lemma sort_entries (collection : list Candidate) :
  forall i,
    List.map value
      (Lodash.sort compareMultiple (Lodash.mapi_from entry_of i collection))
    = Lodash.sort compareCandidates collection.
Proof.
  induction collection as [|v rest IH]; simpl; intros i; [reflexivity|].
  rewrite sort_insert_entry.
  - simpl. now rewrite IH.
  - reflexivity.
  - apply sort_Forall. simpl. apply entries_well_formed.
Qed.

Lemma orderBy_sort (collection : list Candidate) :
  orderBy collection = Lodash.sort compareCandidates collection.
Proof. unfold orderBy. apply (sort_entries collection 0%Z). Qed.

(** *** The sort of the engine

    [Array.prototype.sort] does not promise an algorithm, and [Lodash.sort]
    is one choice.  For [orderBy] the choice does not matter: no two entries
    compare equal, so there is one sorted arrangement of the entries. *)

Lemma compareMultiple_lexicographic (a b : SortEntry) :
  compareMultiple a b
  = lexicographic compareCriteria Lodash.compareAscending_number
      (entry_key a) (entry_key b).
Proof. reflexivity. Qed.

Lemma KeyOrder_entry_key :
  KeyOrder (lexicographic compareCriteria Lodash.compareAscending_number).
Proof.
  apply KeyOrder_lexicographic;
    [apply KeyOrder_compareCriteria | apply KeyOrder_number].
Qed.

Lemma compareMultiple_sym (a b : SortEntry) :
  compareMultiple b a = CompOpp (compareMultiple a b).
Proof.
  rewrite !compareMultiple_lexicographic. apply (ko_sym KeyOrder_entry_key).
Qed.

Lemma compareMultiple_trans (a b c : SortEntry) :
  compareMultiple a b = Lt -> compareMultiple b c = Lt ->
  compareMultiple a c = Lt.
Proof.
  rewrite !compareMultiple_lexicographic. apply (ko_trans KeyOrder_entry_key).
Qed.

Lemma compareMultiple_eq_l (a b c : SortEntry) :
  compareMultiple a b = Eq -> compareMultiple a c = compareMultiple b c.
Proof.
  rewrite !compareMultiple_lexicographic. intros H.
  apply (ko_eq KeyOrder_entry_key) in H. now rewrite H.
Qed.

Lemma entries_by_index (collection : list Candidate) :
  forall i a b,
    In a (Lodash.mapi_from entry_of i collection) ->
    In b (Lodash.mapi_from entry_of i collection) ->
    index a = index b -> a = b.
Proof.
  induction collection as [|v rest IH]; simpl; intros i a b Ha Hb E;
    [contradiction|].
  pose proof (entries_well_formed rest (i + 1)%Z) as Hwf.
  rewrite Forall_forall in Hwf.
  destruct Ha as [<-|Ha], Hb as [<-|Hb].
  - reflexivity.
  - destruct (Hwf b Hb) as [Hi _]. simpl in E. lia.
  - destruct (Hwf a Ha) as [Hi _]. simpl in E. lia.
  - now apply (IH (i + 1)%Z).
Qed.

Lemma sorted_arrangement_unique {A : Type} (comparer : A -> A -> comparison)
    (l1 : list A) :
  forall l2,
    Permutation l1 l2 ->
    StronglySorted (not_after comparer) l1 ->
    StronglySorted (not_after comparer) l2 ->
    (forall x y, In x l1 -> In y l1 ->
                 not_after comparer x y -> not_after comparer y x -> x = y) ->
    l1 = l2.
Proof.
  induction l1 as [|x1 t1 IH]; intros l2 Hperm Hs1 Hs2 Hanti.
  - apply Permutation_nil in Hperm. now subst.
  - destruct l2 as [|x2 t2].
    + apply Permutation_sym, Permutation_nil in Hperm. discriminate.
    + inversion Hs1 as [|? ? Hs1' Hx1]; subst.
      inversion Hs2 as [|? ? Hs2' Hx2]; subst.
      rewrite Forall_forall in Hx1, Hx2.
      assert (In x2 (x1 :: t1)) as H21
        by (eapply Permutation_in; [symmetry; exact Hperm | now left]).
      assert (In x1 (x2 :: t2)) as H12
        by (eapply Permutation_in; [exact Hperm | now left]).
      assert (x1 = x2) as ->.
      { destruct H21 as [E|H21]; [assumption|].
        destruct H12 as [E|H12]; [now symmetry|].
        apply Hanti; [now left | now right | now apply Hx1 | now apply Hx2]. }
      f_equal. apply IH; try assumption.
      * eapply Permutation_cons_inv. exact Hperm.
      * intros x y Hx Hy. apply Hanti; now right.
Qed.

Lemma orderBy_any_sort (collection : list Candidate) (sorted : list SortEntry) :
  Permutation sorted (Lodash.mapi_from entry_of 0%Z collection) ->
  StronglySorted (not_after compareMultiple) sorted ->
  List.map value sorted = orderBy collection.
Proof.
  intros Hperm Hsorted. unfold orderBy. f_equal.
  change (fun v i => {| criteria := criteria_of v; index := i; value := v |})
    with entry_of.
  apply sorted_arrangement_unique with (comparer := compareMultiple).
  - rewrite Hperm. symmetry. apply sort_Permutation.
  - exact Hsorted.
  - apply sort_sorted;
      first [ exact compareMultiple_sym | exact compareMultiple_trans
            | exact compareMultiple_eq_l ].
  - intros x y Hx Hy Hxy Hyx. unfold not_after in *.
    assert (compareMultiple x y = Eq) as E.
    { rewrite compareMultiple_sym in Hyx.
      destruct (compareMultiple x y); simpl in *; congruence. }
    rewrite compareMultiple_lexicographic in E.
    apply (ko_eq KeyOrder_entry_key) in E.
    apply (entries_by_index collection 0%Z).
    + eapply Permutation_in; [exact Hperm | exact Hx].
    + eapply Permutation_in; [exact Hperm | exact Hy].
    + unfold entry_key in E. congruence.
Qed.

Lemma not_after_ranks (a b : Candidate) :
  not_after compareCandidates a b <-> ranks_no_lower a b.
Proof.
  unfold not_after, ranks_no_lower, compareCandidates, compareCriteria,
    criteria_of, desc_then, Lodash.compareAscending_number.
  destruct (Lodash.compareAscending_string (indexer a) (indexer b)) eqn:Es.
  - apply (ko_eq KeyOrder_string) in Es.
    destruct (Z.compare_spec (score (tag a)) (score (tag b)));
      destruct (Z.compare_spec (score (quality a)) (score (quality b)));
      destruct (Z.compare_spec (seeders a) (seeders b));
      simpl;
      (split;
       [ intros Hyp; first [congruence | right; split; [assumption | lia]]
       | intros [Hyp|[_ Hyp]]; [discriminate | first [congruence | exfalso; lia]] ]).
  - simpl. split; [congruence|].
    intros [H|[H _]]; [discriminate|].
    rewrite H, (ko_refl KeyOrder_string) in Es. discriminate.
  - simpl. split; [now left | congruence].
Qed.

Lemma StronglySorted_weaken {A : Type} (R R' : A -> A -> Prop) (l : list A) :
  (forall a b, R a b -> R' a b) -> StronglySorted R l -> StronglySorted R' l.
Proof.
  intros HR. induction 1 as [|x l Hl IH Hx]; constructor; [assumption|].
  eapply Forall_impl; [|exact Hx]. intros b. apply HR.
Qed.

Lemma has_keys_iff (keys : jsstring * Z * Z * Z) (c : Candidate) :
  has_keys keys c = true <-> criteria_of c = keys.
Proof.
  destruct keys as [[[ki kt] kq] ks]. unfold has_keys, criteria_of.
  rewrite !andb_true_iff, jsstring_eqb_eq, !Z.eqb_eq. split.
  - intros [[[-> ->] ->] ->]. reflexivity.
  - intros E. inversion E. auto.
Qed.

Lemma orderBy_sorted_permutation (collection : list Candidate) :
  Permutation (orderBy collection) collection
  /\ StronglySorted ranks_no_lower (orderBy collection).
Proof.
  rewrite !orderBy_sort. split.
  - apply sort_Permutation.
  - apply StronglySorted_weaken with (R := not_after compareCandidates).
    + intros a b. apply not_after_ranks.
    + apply sort_sorted; order_facts.
Qed.

(** C2. [orderBy] rearranges the candidates in descending order of the keys
    (indexer, tag score, quality score, seeders); candidates with the same
    four keys keep the order they came in; and sorting again changes
    nothing: a ranked list is returned as it is. *)
Theorem orderBy_stable_descending (collection : list Candidate) :
  Permutation (orderBy collection) collection
  /\ StronglySorted ranks_no_lower (orderBy collection)
  /\ (forall keys,
        filter (has_keys keys) (orderBy collection)
        = filter (has_keys keys) collection)
  /\ orderBy (orderBy collection) = orderBy collection
  /\ (StronglySorted ranks_no_lower collection -> orderBy collection = collection).
Proof.
  split; [apply orderBy_sorted_permutation|].
  split; [apply orderBy_sorted_permutation|].
  rewrite !orderBy_sort. repeat split.
  - intros keys. apply sort_filter.
    intros x y Hx Hy. apply has_keys_iff in Hx, Hy.
    unfold compareCandidates. rewrite Hx, Hy.
    apply (ko_refl KeyOrder_compareCriteria).
  - apply sort_idempotent; order_facts.
  - intros H. apply sort_fixed.
    apply StronglySorted_weaken with (R := ranks_no_lower); [|exact H].
    intros a b. apply not_after_ranks.
Qed.

(** ** Selection and the error policy of [search] *)

Lemma search_settled_manual (opts : Options)
    (allIndexers : list (Settled (list Candidate)))
    (resolvedIndexers : list (option (list Candidate))) :
  withoutFilter opts = Some true ->
  PromiseRaceAll allIndexers = Return resolvedIndexers ->
  search_settled opts allIndexers
  = Return (List.map Some (orderBy (concat (keep_truthy resolvedIndexers)))).
Proof.
  unfold search_settled. intros -> ->. reflexivity.
Qed.

(** In automated mode, when at least one candidate came back, the result is
    the single candidate that the ranking puts first. *)
Lemma search_settled_best (opts : Options)
    (allIndexers : list (Settled (list Candidate)))
    (resolvedIndexers : list (option (list Candidate))) :
  or_default (withoutFilter opts) false = false ->
  PromiseRaceAll allIndexers = Return resolvedIndexers ->
  concat (keep_truthy resolvedIndexers) <> [] ->
  exists best others,
    orderBy (concat (keep_truthy resolvedIndexers)) = best :: others
    /\ Forall (ranks_no_lower best) others
    /\ search_settled opts allIndexers = Return [Some best].
Proof.
  unfold search_settled. intros -> -> Hne.
  destruct (orderBy_sorted_permutation (concat (keep_truthy resolvedIndexers)))
    as [Hperm Hsorted].
  destruct (orderBy (concat (keep_truthy resolvedIndexers))) as [|best others].
  - apply Permutation_nil in Hperm. contradiction.
  - exists best, others. inversion Hsorted; subst. auto.
Qed.

(** In automated mode, when no candidate came back from the indexers that
    answered, the result is an array of one element, which is [undefined]. *)
Lemma search_settled_nothing (opts : Options)
    (allIndexers : list (Settled (list Candidate)))
    (resolvedIndexers : list (option (list Candidate))) :
  or_default (withoutFilter opts) false = false ->
  PromiseRaceAll allIndexers = Return resolvedIndexers ->
  concat (keep_truthy resolvedIndexers) = [] ->
  search_settled opts allIndexers = Return [None].
Proof.
  unfold search_settled. intros -> -> ->. reflexivity.
Qed.

Lemma search_settled_all_rejected (opts : Options) (first : JsError)
    (others : list (Settled (list Candidate))) :
  forallb is_rejected others = true ->
  search_settled opts (Rejected first :: others)
  = if Js.eqb (message first) noResultsError then Return []
    else Throw (ThrownError first).
Proof.
  unfold search_settled, PromiseRaceAll. simpl. intros ->. reflexivity.
Qed.

(** C7. When the task of every configured indexer fails, [search] looks at
    the first error of the aggregate: if its message is [NO_RESULTS] the
    search returns an empty list, otherwise it throws that first error. *)
Theorem search_every_indexer_fails (indexer1 : JackettIndexer)
    (others : list JackettIndexer) (queries : list jsstring) (opts : Options)
    (first : JsError) :
  fate indexer1 = Rejected first ->
  (forall indexer0, In indexer0 others -> exists e, fate indexer0 = Rejected e) ->
  search (indexer1 :: others) queries opts
  = if Js.eqb (message first) noResultsError then Return []
    else Throw (ThrownError first).
Proof.
  intros H1 Hothers. unfold search. simpl. rewrite H1.
  apply search_settled_all_rejected.
  apply forallb_forall. intros task Htask.
  apply in_map_iff in Htask. destruct Htask as (indexer0 & <- & Hin).
  destruct (Hothers indexer0 Hin) as [e ->]. reflexivity.
Qed.

End ServiceFacts.

(** ** Transliteration *)

Lemma indexOf_absent (array : list jsstring) (x : jsstring) :
  ~ In x array -> forall from, indexOf array x from = (-1)%Z.
Proof.
  induction array as [|y rest IH]; simpl; intros H from; [reflexivity|].
  assert (Js.eqb y x = false) as ->.
  { apply jsstring_eqb_neq. intros E. apply H. now left. }
  apply IH. intros Hin. apply H. now right.
Qed.

Lemma toLatin_cons (c : char) (s : jsstring) :
  toLatin (c :: s)
  = (let index := indexOf cyrillic [c] 0%Z in
     if Z.eqb (Z.lnot index) 0%Z then [c] else nth (Z.to_nat index) latin [])
    ++ toLatin s.
Proof. reflexivity. Qed.

Lemma toLatin_app (u v : jsstring) :
  toLatin (u ++ v) = toLatin u ++ toLatin v.
Proof. unfold toLatin. now rewrite map_app, concat_app. Qed.

(** A character that is not in the Cyrillic alphabet of the table passes
    through, whatever stands around it. *)
Lemma toLatin_pass_through (c : char) (u v : jsstring) :
  ~ In [c] cyrillic -> toLatin (u ++ c :: v) = toLatin u ++ c :: toLatin v.
Proof.
  intros Hc. rewrite toLatin_app, toLatin_cons, (indexOf_absent _ _ Hc).
  reflexivity.
Qed.

Lemma toLatin_identity (text : jsstring) :
  Forall (fun c => ~ In [c] cyrillic) text -> toLatin text = text.
Proof.
  induction 1 as [|c rest Hc _ IH]; [reflexivity|].
  rewrite toLatin_cons, IH, (indexOf_absent _ _ Hc). reflexivity.
Qed.

(** ** Script detection *)

Lemma matches_at_start_Void (s : jsstring) :
  Regex.matches_at_start Regex.Void s = false.
Proof. induction s as [|c s IH]; simpl; auto. Qed.

Lemma matches_at_start_Eps (s : jsstring) :
  Regex.matches_at_start Regex.Eps s = true.
Proof. destruct s; reflexivity. Qed.

(** A pattern made of one class matches when some character is in the
    class. *)
Lemma matches_Class (p : char -> bool) (s : jsstring) :
  Regex.matches (Regex.Class p) s = existsb p s.
Proof.
  induction s as [|c s IH]; simpl; [reflexivity|].
  rewrite IH. destruct (p c); simpl.
  - now rewrite matches_at_start_Eps.
  - now rewrite matches_at_start_Void.
Qed.

(** [isLatin] holds when every code point is a Latin letter, a digit or one
    of the listed characters. *)
Lemma isLatin_forallb (title : jsstring) :
  isLatin title
  = forallb (fun c => negb (hasNonLatin_class c)) (codePoints title).
Proof.
  unfold isLatin, hasNonLatin. rewrite matches_Class.
  induction (codePoints title) as [|c l IH]; simpl; [reflexivity|].
  rewrite negb_orb. now rewrite IH.
Qed.

Lemma codePoints_cons_bmp (c : char) (s : jsstring) :
  (c < 0xD800)%N -> codePoints (c :: s) = c :: codePoints s.
Proof.
  intros Hc. destruct s as [|d s']; [reflexivity|].
  change (codePoints (c :: d :: s'))
    with (if ((0xD800 <=? c) && (c <=? 0xDBFF)
              && (0xDC00 <=? d) && (d <=? 0xDFFF))%N
          then (0x10000 + (c - 0xD800) * 0x400 + (d - 0xDC00))%N :: codePoints s'
          else c :: codePoints (d :: s')).
  assert ((0xD800 <=? c)%N = false) as -> by (apply N.leb_gt; exact Hc).
  reflexivity.
Qed.

(** Without surrogates, the code points are the code units. *)
Lemma codePoints_bmp (s : jsstring) :
  Forall (fun c => (c < 0xD800)%N) s -> codePoints s = s.
Proof.
  induction 1 as [|c rest Hc _ IH]; [reflexivity|].
  rewrite codePoints_cons_bmp by assumption. now rewrite IH.
Qed.

Lemma latin_outputs_checked :
  forallb
    (fun c =>
       existsb (N.eqb c) modifier_primes
       || (negb (hasNonLatin_class c) && (c <? 0xD800)%N))
    latin_output_chars = true.
Proof. vm_compute. reflexivity. Qed.

Lemma latin_output_char (c : char) :
  In c latin_output_chars -> ~ In c modifier_primes ->
  hasNonLatin_class c = false /\ (c < 0xD800)%N.
Proof.
  intros Hin Hnot.
  pose proof latin_outputs_checked as H.
  rewrite forallb_forall in H. specialize (H c Hin).
  apply orb_true_iff in H. destruct H as [H|H].
  - exfalso. apply Hnot. apply existsb_exists in H.
    destruct H as (d & Hd & E). apply N.eqb_eq in E. now subst.
  - apply andb_true_iff in H. destruct H as [H1 H2].
    apply negb_true_iff in H1. apply N.ltb_lt in H2. auto.
Qed.

Lemma isLatin_latin_outputs (text : jsstring) :
  Forall (fun c => In c latin_output_chars /\ ~ In c modifier_primes) text ->
  isLatin text = true.
Proof.
  intros H. rewrite isLatin_forallb, codePoints_bmp.
  - apply forallb_forall. intros c Hc.
    rewrite Forall_forall in H. destruct (H c Hc) as [Hin Hnot].
    apply negb_true_iff. now apply latin_output_char.
  - eapply Forall_impl; [|exact H]. intros c [Hin Hnot].
    now apply latin_output_char.
Qed.

(** ** Patterns: the matcher against the language *)

Lemma nullable_sound (r : Regex.t) :
  Regex.nullable r = true -> Regex.In_lang r [].
Proof.
  induction r; simpl; intros H; try discriminate.
  - constructor.
  - apply andb_true_iff in H. destruct H as [H1 H2].
    change (@nil char) with (@nil char ++ @nil char). constructor; auto.
  - apply orb_true_iff in H. destruct H as [H|H].
    + apply Regex.L_alt_l; auto.
    + apply Regex.L_alt_r; auto.
  - constructor.
Qed.

Lemma deriv_sound (c : char) (r : Regex.t) :
  forall w, Regex.In_lang (Regex.deriv c r) w -> Regex.In_lang r (c :: w).
Proof.
  induction r; simpl; intros w H.
  - inversion H.
  - inversion H.
  - destruct (N.eqb c c0) eqn:E; inversion H; subst.
    apply N.eqb_eq in E. subst. constructor.
  - destruct (p c) eqn:E; inversion H; subst. now constructor.
  - destruct (Regex.nullable r1) eqn:En.
    + inversion H as [| | | | ? ? ? H1 | ? ? ? H2 | |]; subst.
      * inversion H1 as [| | |? ? u v Hu Hv| | | |]; subst.
        change (c :: u ++ v) with ((c :: u) ++ v). constructor; auto.
      * change (c :: w) with ([] ++ c :: w). constructor; auto.
        now apply nullable_sound.
    + inversion H as [| | |? ? u v Hu Hv| | | |]; subst.
      change (c :: u ++ v) with ((c :: u) ++ v). constructor; auto.
  - inversion H; subst.
    + apply Regex.L_alt_l; auto.
    + apply Regex.L_alt_r; auto.
  - inversion H as [| | |? ? u v Hu Hv| | | |]; subst.
    change (c :: u ++ v) with ((c :: u) ++ v). constructor; auto.
Qed.

Lemma matches_at_start_sound (s : jsstring) :
  forall r, Regex.matches_at_start r s = true ->
            exists w rest, s = w ++ rest /\ Regex.In_lang r w.
Proof.
  induction s as [|c s IH]; simpl; intros r H.
  - rewrite orb_false_r in H. exists [], []. split; [reflexivity|].
    now apply nullable_sound.
  - apply orb_true_iff in H. destruct H as [H|H].
    + exists [], (c :: s). split; [reflexivity | now apply nullable_sound].
    + apply IH in H. destruct H as (w & rest & -> & Hw).
      exists (c :: w), rest. split; [reflexivity | now apply deriv_sound].
Qed.

(** A match is a substring in the language of the pattern. *)
Lemma matches_sound (r : Regex.t) (s : jsstring) :
  Regex.matches r s = true ->
  exists before w rest, s = before ++ w ++ rest /\ Regex.In_lang r w.
Proof.
  induction s as [|c s IH]; simpl; intros H.
  - rewrite !orb_false_r in H. exists [], [], []. split; [reflexivity|].
    now apply nullable_sound.
  - apply orb_true_iff in H. destruct H as [H|H].
    + apply (matches_at_start_sound (c :: s)) in H.
      destruct H as (w & rest & E & Hw). exists [], w, rest. auto.
    + apply IH in H. destruct H as (before & w & rest & -> & Hw).
      exists (c :: before), w, rest. auto.
Qed.

Lemma nullable_complete (r : Regex.t) (w : jsstring) :
  Regex.In_lang r w -> w = [] -> Regex.nullable r = true.
Proof.
  induction 1 as [| | |r1 r2 u v _ IH1 _ IH2|r1 r2 u _ IH|r1 r2 u _ IH
                  | |r u v _ _ _ _]; simpl; intros E; try discriminate; auto.
  - apply app_eq_nil in E. destruct E as [-> ->].
    now rewrite IH1, IH2.
  - now rewrite IH.
  - rewrite IH by assumption. apply orb_true_r.
Qed.

Lemma deriv_complete (r : Regex.t) (s : jsstring) :
  Regex.In_lang r s ->
  forall x w, s = x :: w -> Regex.In_lang (Regex.deriv x r) w.
Proof.
  induction 1 as [| | |r1 r2 u v H1 IH1 H2 IH2|r1 r2 u _ IH|r1 r2 u _ IH
                  | |r u v H1 IH1 H2 IH2]; simpl; intros x w E; try discriminate.
  - inversion E; subst. rewrite N.eqb_refl. constructor.
  - inversion E; subst. rewrite H. constructor.
  - destruct u as [|d u'].
    + simpl in E. subst v.
      rewrite (nullable_complete H1 eq_refl).
      apply Regex.L_alt_r. now apply IH2.
    + simpl in E. inversion E; subst.
      destruct (Regex.nullable r1).
      * apply Regex.L_alt_l. constructor; auto.
      * constructor; auto.
  - apply Regex.L_alt_l. now apply IH.
  - apply Regex.L_alt_r. now apply IH.
  - destruct u as [|d u'].
    + simpl in E. now apply IH2.
    + simpl in E. inversion E; subst. constructor; auto.
Qed.

(** The matcher decides the language of the pattern. *)
Lemma accepts_In_lang (r : Regex.t) (w : jsstring) :
  Regex.accepts r w = true <-> Regex.In_lang r w.
Proof.
  revert r. induction w as [|c w IH]; simpl; intros r.
  - split; [apply nullable_sound | intros H; now apply (nullable_complete H)].
  - rewrite IH. split; [apply deriv_sound|].
    intros H. now apply (deriv_complete H).
Qed.

Lemma matches_at_start_complete (r : Regex.t) (w rest : jsstring) :
  Regex.In_lang r w -> Regex.matches_at_start r (w ++ rest) = true.
Proof.
  revert r. induction w as [|c w IH]; intros r H.
  - destruct rest; simpl; now rewrite (nullable_complete H eq_refl).
  - simpl. rewrite (IH (Regex.deriv c r)); [apply orb_true_r|].
    now apply (deriv_complete H).
Qed.

(** A match somewhere in a suffix is a match in the string. *)
Lemma matches_skip (r : Regex.t) (before s : jsstring) :
  Regex.matches r s = true -> Regex.matches r (before ++ s) = true.
Proof.
  intros H. induction before as [|c before IH]; simpl; [assumption|].
  rewrite IH. apply orb_true_r.
Qed.

Lemma matches_at_start_nullable (r : Regex.t) (s : jsstring) :
  Regex.nullable r = true -> Regex.matches_at_start r s = true.
Proof. destruct s; simpl; intros ->; reflexivity. Qed.

Lemma matches_of_start (r : Regex.t) (s : jsstring) :
  Regex.matches_at_start r s = true -> Regex.matches r s = true.
Proof. destruct s; simpl; intros ->; reflexivity. Qed.

(** [s.match(r)] is truthy exactly when a substring of [s] is in the
    language of [r]. *)
Lemma matches_substring (r : Regex.t) (s : jsstring) :
  Regex.matches r s = true
  <-> exists before w rest, s = before ++ w ++ rest /\ Regex.In_lang r w.
Proof.
  split; [apply matches_sound|].
  intros (before & w & rest & -> & H).
  apply matches_skip, matches_of_start. now apply matches_at_start_complete.
Qed.

(** ** Title parts against the title *)

Lemma split_nonempty (sep : char) (s : jsstring) : Js.split sep s <> [].
Proof.
  induction s as [|c s IH]; simpl; [discriminate|].
  destruct (N.eqb c sep); [discriminate|].
  destruct (Js.split sep s); discriminate.
Qed.

(** Joining the pieces of a split gives the string back. *)
Lemma join_split (sep : char) (s : jsstring) :
  Js.join [sep] (Js.split sep s) = s.
Proof.
  induction s as [|c s IH]; [reflexivity|].
  simpl. destruct (N.eqb c sep) eqn:E.
  - apply N.eqb_eq in E. subst c.
    destruct (Js.split sep s) as [|p ps] eqn:Es.
    + exfalso. now apply (split_nonempty sep s).
    + change (Js.join [sep] ([] :: p :: ps)) with (sep :: Js.join [sep] (p :: ps)).
      now rewrite IH.
  - destruct (Js.split sep s) as [|p ps] eqn:Es.
    + exfalso. now apply (split_nonempty sep s).
    + rewrite <- IH. destruct ps; reflexivity.
Qed.

Lemma join_substring (sep : jsstring) (pieces : list jsstring) :
  forall piece, In piece pieces ->
                exists before rest, Js.join sep pieces = before ++ piece ++ rest.
Proof.
  induction pieces as [|p ps IH]; intros piece H; [contradiction|].
  destruct H as [<-|H].
  - destruct ps as [|q ps'].
    + exists [], []. simpl. now rewrite app_nil_r.
    + exists [], (sep ++ Js.join sep (q :: ps')). reflexivity.
  - destruct ps as [|q ps']; [contradiction|].
    destruct (IH piece H) as (before & rest & E).
    exists (p ++ sep ++ before), rest.
    change (Js.join sep (p :: q :: ps')) with (p ++ sep ++ Js.join sep (q :: ps')).
    rewrite E. now rewrite <- !app_assoc.
Qed.

(** Every title part is a substring of the title. *)
Lemma titleParts_substring (normalizedTitle0 part : jsstring) :
  In part (titleParts normalizedTitle0) ->
  exists before rest, normalizedTitle0 = before ++ part ++ rest.
Proof.
  unfold titleParts. intros H. apply filter_In in H. destruct H as [H _].
  destruct (join_substring [32%N] _ _ H) as (before & rest & E).
  rewrite join_split in E. now exists before, rest.
Qed.

Lemma occurrences_app (x : char) (u v : jsstring) :
  occurrences x (u ++ v) = (occurrences x u + occurrences x v)%nat.
Proof. apply count_occ_app. Qed.

Lemma occurrences_join (x sep : char) (pieces : list jsstring) :
  x <> sep ->
  occurrences x (Js.join [sep] pieces) = occurrences x (concat pieces).
Proof.
  intros Hx. induction pieces as [|p ps IH]; [reflexivity|].
  destruct ps as [|q ps'].
  - simpl. now rewrite app_nil_r.
  - change (Js.join [sep] (p :: q :: ps'))
      with (p ++ [sep] ++ Js.join [sep] (q :: ps')).
    change (concat (p :: q :: ps')) with (p ++ concat (q :: ps')).
    rewrite !occurrences_app, IH.
    unfold occurrences at 2. simpl.
    destruct (N.eq_dec sep x); [congruence | reflexivity].
Qed.

Lemma trimStart_nil (s : jsstring) :
  Js.trimStart s = [] -> Forall (fun c => Js.is_space c = true) s.
Proof.
  induction s as [|c s IH]; simpl; intros H; [constructor|].
  destruct (Js.is_space c) eqn:E; [|discriminate].
  constructor; auto.
Qed.

Lemma trimStart_head (s : jsstring) (c : char) (rest : jsstring) :
  Js.trimStart s = c :: rest -> Js.is_space c = false.
Proof.
  induction s as [|d s IH]; simpl; intros H; [discriminate|].
  destruct (Js.is_space d) eqn:E; [auto|].
  inversion H; subst. assumption.
Qed.

(** A string that trims to the empty string is made of white space. *)
Lemma trim_nil (s : jsstring) :
  Js.trim s = [] -> Forall (fun c => Js.is_space c = true) s.
Proof.
  unfold Js.trim. intros H.
  assert (Js.trimStart (rev (Js.trimStart s)) = []) as H'.
  { destruct (Js.trimStart (rev (Js.trimStart s))) as [|c l]; [reflexivity|].
    simpl in H. now destruct (rev l). }
  apply trimStart_nil in H'.
  destruct (Js.trimStart s) as [|c rest] eqn:E.
  - now apply trimStart_nil.
  - exfalso. apply trimStart_head in E.
    rewrite Forall_forall in H'. rewrite (H' c) in E; [discriminate|].
    apply -> in_rev. now left.
Qed.

(** A character that is not white space occurs in the title as often as in
    its parts taken together. *)
Lemma occurrences_titleParts (x : char) (normalizedTitle0 : jsstring) :
  Js.is_space x = false ->
  occurrences x (concat (titleParts normalizedTitle0))
  = occurrences x normalizedTitle0.
Proof.
  intros Hx. unfold titleParts.
  rewrite <- (join_split 32%N normalizedTitle0) at 2.
  rewrite occurrences_join by (intros ->; discriminate).
  induction (Js.split 32%N normalizedTitle0) as [|p ps IH]; [reflexivity|].
  simpl. destruct (Js.truthy p && Js.truthy (Js.trim p)) eqn:E.
  - simpl. now rewrite !occurrences_app, IH.
  - rewrite occurrences_app, IH.
    assert (occurrences x p = 0%nat) as ->; [|reflexivity].
    apply count_occ_not_In. intros Hin.
    apply andb_false_iff in E. destruct E as [E|E].
    + destruct p; [contradiction | discriminate].
    + assert (Js.trim p = []) as Ht by (destruct (Js.trim p); [reflexivity | discriminate]).
      apply trim_nil in Ht. rewrite Forall_forall in Ht.
      rewrite (Ht x Hin) in Hx. discriminate.
Qed.

(** ** Season requests: episodes and episode ranges *)

Lemma In_lang_Chr_Cat (c : char) (r : Regex.t) (w : jsstring) :
  Regex.In_lang (Regex.Cat (Regex.Chr c) r) w ->
  exists v, w = c :: v /\ Regex.In_lang r v.
Proof.
  intros H. inversion H as [| | |? ? u v Hu Hv| | | |]; subst.
  inversion Hu; subst. now exists v.
Qed.

(** A match of the range pattern has two letters [e]. *)
Lemma episodeRangePattern_two_e (normalizedTitle0 : jsstring) :
  Regex.matches episodeRangePattern normalizedTitle0 = true ->
  (2 <= occurrences 101%N normalizedTitle0)%nat.
Proof.
  intros H. apply matches_sound in H.
  destruct H as (before & w & rest & -> & Hw).
  unfold episodeRangePattern in Hw.
  inversion Hw as [| | |? ? u v Hu Hv| | | |]; subst.
  apply In_lang_Chr_Cat in Hu. destruct Hu as (u' & -> & _).
  inversion Hv as [| | |? ? sp v' _ Hv'| | | |]; subst.
  apply In_lang_Chr_Cat in Hv'. destruct Hv' as (v'' & -> & _).
  rewrite !occurrences_app.
  change (occurrences 101%N (101%N :: u')) with (S (occurrences 101%N u')).
  change (occurrences 101%N (101%N :: v'')) with (S (occurrences 101%N v'')).
  lia.
Qed.

Lemma episodePattern_indicator (part : jsstring) :
  is_episode_indicator part -> Regex.matches episodePattern part = true.
Proof.
  intros [->|(number & Hne & Hd & [->| ->])].
  - reflexivity.
  - destruct number as [|d number]; [congruence|].
    inversion Hd as [|? ? Hd1 _]; subst.
    apply matches_of_start. unfold episodePattern. simpl. rewrite Hd1.
    apply matches_at_start_nullable. reflexivity.
  - apply matches_of_start. destruct number; reflexivity.
Qed.

Lemma isEpisode_indicator (result : Candidate) (part : jsstring) :
  In part (normalizedTitleParts result) ->
  Regex.matches episodePattern part = true ->
  Regex.matches episodeRangePattern (normalizedTitle result) = false ->
  isEpisode result = true.
Proof.
  intros Hin Hp Hr. unfold isEpisode. apply existsb_exists.
  exists part. split; [assumption|]. now rewrite Hp, Hr.
Qed.

Lemma isEpisode_range (result : Candidate) :
  Regex.matches episodeRangePattern (normalizedTitle result) = true ->
  isEpisode result = false.
Proof.
  intros Hr. unfold isEpisode. rewrite Hr.
  induction (normalizedTitleParts result) as [|p ps IH]; simpl; [reflexivity|].
  now rewrite andb_false_r.
Qed.

(** The callback of the filter in a season request: a title part that is an
    episode indicator makes it fail unless the title holds an episode range,
    with which it is the test of size and seeders; so for the two token lists
    of the scenario, whatever the title that splits into them. *)
Lemma acceptable_season_episodes (maxSize0 : option Z) (result : Candidate) :
  (forall part,
     In part (normalizedTitleParts result) -> is_episode_indicator part ->
     Regex.matches episodeRangePattern (normalizedTitle result) = false ->
     acceptable maxSize0 true false result = false)
  /\ (Regex.matches episodeRangePattern (normalizedTitle result) = true ->
      acceptable maxSize0 true false result
      = hasAcceptableSize maxSize0 result && hasSeeders result)
  /\ (normalizedTitleParts result = titleParts (normalizedTitle result) ->
      normalizedTitleParts result = episode_tokens ->
      acceptable maxSize0 true false result = false)
  /\ (normalizedTitleParts result = titleParts (normalizedTitle result) ->
      normalizedTitleParts result = season_pack_tokens ->
      acceptable maxSize0 true false result
      = hasAcceptableSize maxSize0 result && hasSeeders result).
Proof.
  assert (forall part,
     In part (normalizedTitleParts result) -> is_episode_indicator part ->
     Regex.matches episodeRangePattern (normalizedTitle result) = false ->
     acceptable maxSize0 true false result = false) as Hreject.
  { intros part Hin Hind Hr. unfold acceptable.
    rewrite (isEpisode_indicator result part Hin
               (episodePattern_indicator Hind) Hr).
    apply andb_false_r. }
  assert (Regex.matches episodeRangePattern (normalizedTitle result) = true ->
      acceptable maxSize0 true false result
      = hasAcceptableSize maxSize0 result && hasSeeders result) as Haccept.
  { intros Hr. unfold acceptable. rewrite (isEpisode_range result Hr).
    apply andb_true_r. }
  split; [exact Hreject|]. split; [exact Haccept|]. split.
  - intros Hwf Htokens.
    apply (Hreject (Js.lit "e05")).
    + rewrite Htokens. simpl. auto.
    + right. exists (Js.lit "05"). repeat split; try discriminate; auto.
      repeat constructor.
    + destruct (Regex.matches episodeRangePattern (normalizedTitle result)) eqn:E;
        [|reflexivity].
      apply episodeRangePattern_two_e in E.
      rewrite <- occurrences_titleParts in E by reflexivity.
      rewrite <- Hwf, Htokens in E. vm_compute in E. lia.
  - intros Hwf Htokens. apply Haccept.
    assert (In (Js.lit "e01e10") (titleParts (normalizedTitle result))) as Hin.
    { rewrite <- Hwf, Htokens. simpl. auto. }
    apply titleParts_substring in Hin. destruct Hin as (before & rest & ->).
    apply matches_skip. apply matches_of_start. reflexivity.
Qed.

(** ** The queries of a movie *)





(** ** Transliteration and script detection together *)

(** C9, as the code has it. [toLatin] returns its argument when none of its
    characters is in the Cyrillic alphabet of the table, and a character that
    is not in that alphabet passes through unchanged wherever it stands;
    [isLatin] holds of every string made of characters of the Latin alphabet
    of the table other than the two modifier primes (the outputs for the hard
    and the soft sign), which are not of the Latin script. *)
Theorem toLatin_isLatin_table :
  (forall text,
     Forall (fun c => ~ In [c] cyrillic) text -> toLatin text = text)
  /\ (forall c before rest,
        ~ In [c] cyrillic ->
        toLatin (before ++ c :: rest) = toLatin before ++ c :: toLatin rest)
  /\ (forall text,
        Forall (fun c => In c latin_output_chars /\ ~ In c modifier_primes) text ->
        isLatin text = true).
Proof.
  split; [|split].
  - apply toLatin_identity.
  - apply toLatin_pass_through.
  - apply isLatin_latin_outputs.
Qed.

(** C9 as stated fails on the output for the soft sign: the transliteration
    of a word that ends with it is made of Latin outputs of the table and is
    not Latin for [isLatin]. *)
Lemma isLatin_soft_sign :
  toLatin lyubov = [108; 251; 98; 111; 118; 697]%N
  /\ forallb (fun c => existsb (N.eqb c) latin_output_chars) (toLatin lyubov) = true
  /\ isLatin (toLatin lyubov) = false.
Proof. vm_compute. repeat split. Qed.

(** * Concrete runs *)

(** The scenario of the specification: with indexers A and B, the automated
    search returns the release of B alone. *)
Lemma search_two_indexers :
  Run.run_search Run.completes Run.respond [Run.indexerA; Run.indexerB] Run.automatic
  = Return [Some Run.good_candidate].
Proof. vm_compute. reflexivity. Qed.

(** C1 fails on the code. With indexer A alone, whose only release is above
    the size bound, no candidate passes the filter, and the automated search
    returns an array of one element, [undefined], where C1 and the [catch]
    block of [search] have an empty array. *)
Theorem search_nothing_acceptable :
  @searchIndexer Run.services Run.queries (Some Run.indexerA) Run.automatic = []
  /\ Run.run_search Run.completes Run.respond [Run.indexerA] Run.automatic
     = Return [None].
Proof. vm_compute. split; reflexivity. Qed.

(** C6 as stated fails on the code. In a manual search over two indexers that
    both list the same release, the result holds two candidates with the
    same identifier. *)
Lemma search_shared_release :
  exists c1 c2,
    Run.run_search Run.completes Run.respond_shared
      [Run.indexerA; Run.indexerB] Run.manual
    = Return [Some c1; Some c2]
    /\ id c1 = id c2
    /\ indexer c1 = Js.lit "b" /\ indexer c2 = Js.lit "a".
Proof.
  eexists. eexists. vm_compute. repeat split.
Qed.

(** ** The theorems at concrete inputs *)

Lemma existsb_In (c : char) (s : jsstring) :
  existsb (N.eqb c) s = true -> In c s.
Proof.
  intros H. apply existsb_exists in H. destruct H as (d & Hd & E).
  apply N.eqb_eq in E. now subst.
Defined.

(** [parseTag] on the tokens of a release: no rule, a rule that does not
    match, and two rules that match, of which the first wins. *)
Lemma parseTag_first_rule_witness :
  Forall (fun part : jsstring => part <> []) movie_tokens
  /\ @parseTag Run.services movie_tokens []
     = {| label := Js.lit "unknown"; score := 1 |}
  /\ @parseTag Run.services movie_tokens [tag_other]
     = {| label := Js.lit "unknown"; score := 0 |}
  /\ @parseTag Run.services movie_tokens [tag_other; tag_group; tag_1080p]
     = {| label := Js.lit "GROUP"; score := 5 |}.
Proof.
  assert (Forall (fun part : jsstring => part <> []) movie_tokens) as H
    by (repeat constructor; discriminate).
  split; [exact H|]. split; [|split].
  - apply (proj1 (@parseTag_first_rule Run.services movie_tokens H [])).
    reflexivity.
  - apply (proj1 (proj2 (@parseTag_first_rule Run.services movie_tokens H
                           [tag_other]))).
    + discriminate.
    + intros tag [<-|[]]. apply jsstring_mem_not_In. reflexivity.
  - apply (proj2 (proj2 (@parseTag_first_rule Run.services movie_tokens H
                           [tag_other; tag_group; tag_1080p]))
             [tag_other] tag_group [tag_1080p]).
    + reflexivity.
    + intros earlier [<-|[]]. apply jsstring_mem_not_In. reflexivity.
    + apply jsstring_mem_In. reflexivity.
Defined.

(** Both indexers fail: with [NO_RESULTS] the search returns an empty list,
    with a refused connection it throws the error of the first indexer. *)
Lemma search_every_indexer_fails_witness :
  Run.run_search (Run.fails_with noResultsError) Run.respond
    [Run.indexerA; Run.indexerB] Run.automatic
  = Return []
  /\ Run.run_search (Run.fails_with (Js.lit "ECONNREFUSED")) Run.respond
       [Run.indexerA; Run.indexerB] Run.automatic
     = Throw (ThrownError {| message := Js.lit "ECONNREFUSED" |}).
Proof.
  split.
  - exact (@search_every_indexer_fails
             (Run.host (Run.fails_with noResultsError) Run.respond)
             Run.indexerA [Run.indexerB] Run.queries Run.automatic
             {| message := noResultsError |} eq_refl
             (fun i _ => ex_intro _ {| message := noResultsError |} eq_refl)).
  - exact (@search_every_indexer_fails
             (Run.host (Run.fails_with (Js.lit "ECONNREFUSED")) Run.respond)
             Run.indexerA [Run.indexerB] Run.queries Run.automatic
             {| message := Js.lit "ECONNREFUSED" |} eq_refl
             (fun i _ => ex_intro _ {| message := Js.lit "ECONNREFUSED" |} eq_refl)).
Defined.

(** The release of indexer B has a link and a magnet URI: its candidate
    carries the magnet URI; the candidate of [no_link] is not returned. *)
Lemma searchIndexer_downloadLink_witness :
  In Run.good_candidate
     (@searchIndexer Run.services Run.queries (Some Run.indexerB) Run.manual)
  /\ (exists result,
        In result (concat (@rawResults Run.services Run.queries (Some Run.indexerB)))
        /\ Run.good_candidate
           = @formatSearchResult Run.services result Run.qualities Run.tags
        /\ (Js.truthy_opt (Link result) = true
            \/ Js.truthy_opt (MagnetUri result) = true)
        /\ Js.truthy_opt (downloadLink Run.good_candidate) = true
        /\ downloadLink Run.good_candidate
           = (if Js.truthy_opt (MagnetUri result)
              then MagnetUri result else Link result))
  /\ downloadLink Run.good_candidate = Some (Js.lit "magnet:?xt=7")
  /\ ~ In (Run.candidate_of no_link)
          (@searchIndexer Run.services Run.queries (Some Run.indexerB)
             Run.manual).
Proof.
  assert (In Run.good_candidate
            (@searchIndexer Run.services Run.queries (Some Run.indexerB)
               Run.manual)) as Hin
    by (left; reflexivity).
  split; [exact Hin|]. split; [|split].
  - exact (proj1 (@searchIndexer_downloadLink Run.services Run.queries
                    (Some Run.indexerB) Run.manual)
             Run.good_candidate Hin).
  - reflexivity.
  - exact (proj2 (@searchIndexer_downloadLink Run.services Run.queries
                    (Some Run.indexerB) Run.manual)
             no_link eq_refl eq_refl).
Defined.

(** Indexer B goes before indexer A whatever the seeders, the two candidates
    of B keep their order, and the ranked list is a fixed point. *)
Lemma orderBy_stable_descending_witness :
  orderBy [one_of_a; first_of_b; second_of_b] = [first_of_b; second_of_b; one_of_a]
  /\ StronglySorted ranks_no_lower [first_of_b; second_of_b; one_of_a]
  /\ orderBy [first_of_b; second_of_b; one_of_a]
     = [first_of_b; second_of_b; one_of_a].
Proof.
  assert (StronglySorted ranks_no_lower [first_of_b; second_of_b; one_of_a]) as H.
  { repeat first [ apply SSorted_nil | apply SSorted_cons
                 | apply Forall_nil | apply Forall_cons
                 | apply not_after_ranks; vm_compute; discriminate ]. }
  split; [vm_compute; reflexivity|]. split; [exact H|].
  exact (proj2 (proj2 (proj2 (proj2
           (orderBy_stable_descending [first_of_b; second_of_b; one_of_a])))) H).
Defined.

(** A Latin title is left as it is, an exclamation mark passes through
    between Cyrillic words, and a transliteration without signs is Latin. *)
Lemma toLatin_isLatin_table_witness :
  toLatin (Js.lit "Alien 3") = Js.lit "Alien 3"
  /\ toLatin (lyubov ++ Js.lit "!" ++ lyubov)
     = toLatin lyubov ++ Js.lit "!" ++ toLatin lyubov
  /\ isLatin (Js.lit "Brat") = true.
Proof.
  split; [|split].
  - apply (proj1 toLatin_isLatin_table).
    repeat (apply Forall_cons; [apply jsstring_mem_not_In; reflexivity|]).
    apply Forall_nil.
  - apply (proj1 (proj2 toLatin_isLatin_table) 33%N lyubov lyubov).
    apply jsstring_mem_not_In. reflexivity.
  - apply (proj2 (proj2 toLatin_isLatin_table)).
    repeat (apply Forall_cons;
            [ split; [ apply existsb_In; reflexivity
                     | intros [E|[E|[]]]; discriminate ] | ]).
    apply Forall_nil.
Defined.

(** * Further properties *)

(** ** [parseQuality] *)

Section FurtherServiceFacts.

Context {host : Host}.

Lemma quality_matched (tokens : list jsstring) (rule : Quality) :
  Forall (fun part => part <> []) tokens ->
  existsb
    (fun keyword =>
       Js.truthy_opt
         (find (fun part => Js.eqb part (toLowerCase keyword)) tokens))
    (quality_match rule) = true
  <-> exists keyword,
        In keyword (quality_match rule) /\ In (toLowerCase keyword) tokens.
Proof.
  intros Hne. rewrite existsb_exists. split.
  - intros (keyword & Hk & H). exists keyword. split; [assumption|].
    rewrite find_truthy_mem in H by assumption. now apply jsstring_mem_In.
  - intros (keyword & Hk & H). exists keyword. split; [assumption|].
    rewrite find_truthy_mem by assumption. now apply jsstring_mem_In.
Qed.

(** X1. On the token list of a candidate, [parseQuality] answers the name and
    score of the first quality rule, in list order, one of whose keywords
    (lowercased) is a token; when no keyword of any rule is a token, and so
    also when no rule is configured, it answers [unknown] with score 0. *)
Theorem parseQuality_first_rule (tokens : list jsstring) (rules : list Quality) :
  Forall (fun part => part <> []) tokens ->
  ((forall rule keyword,
      In rule rules -> In keyword (quality_match rule) ->
      ~ In (toLowerCase keyword) tokens) ->
   parseQuality tokens rules = {| label := Js.lit "unknown"; score := 0 |})
  /\ (forall before rule after keyword,
        rules = before ++ rule :: after ->
        (forall earlier keyword', In earlier before ->
           In keyword' (quality_match earlier) ->
           ~ In (toLowerCase keyword') tokens) ->
        In keyword (quality_match rule) ->
        In (toLowerCase keyword) tokens ->
        parseQuality tokens rules
        = {| label := quality_name rule; score := quality_score rule |}).
Proof.
  intros Hne. split.
  - intros Hnone. unfold parseQuality. rewrite find_all_false; [reflexivity|].
    intros rule Hrule.
    destruct (existsb _ (quality_match rule)) eqn:E; [|reflexivity].
    apply quality_matched in E; [|assumption].
    destruct E as (keyword & Hk & Hin). exfalso. eapply Hnone; eassumption.
  - intros before rule after keyword -> Hbefore Hk Hin. unfold parseQuality.
    rewrite find_first_true; [reflexivity| |].
    + intros earlier He.
      destruct (existsb _ (quality_match earlier)) eqn:E; [|reflexivity].
      apply quality_matched in E; [|assumption].
      destruct E as (keyword' & Hk' & Hin'). exfalso.
      eapply Hbefore; eassumption.
    + apply quality_matched; [assumption|]. now exists keyword.
Qed.

End FurtherServiceFacts.

(** ** The parts of a title *)

Lemma split_no_separator (sep : char) (s : jsstring) :
  forall piece, In piece (Js.split sep s) -> ~ In sep piece.
Proof.
  induction s as [|c s IH]; simpl; intros piece H.
  - destruct H as [<-|[]]. intros [].
  - destruct (N.eqb c sep) eqn:E.
    + destruct H as [<-|H]; [intros [] | now apply IH].
    + destruct (Js.split sep s) as [|p ps].
      * destruct H as [<-|[]]. intros [->|[]]. now rewrite N.eqb_refl in E.
      * destruct H as [<-|H].
        -- intros [->|Hin]; [now rewrite N.eqb_refl in E|].
           now apply (IH p (or_introl eq_refl)).
        -- apply IH. now right.
Qed.

Lemma trim_keeps_a_character (s : jsstring) :
  Js.trim s <> [] <-> exists c, In c s /\ Js.is_space c = false.
Proof.
  split.
  - intros H. destruct (existsb (fun c => negb (Js.is_space c)) s) eqn:E.
    + apply existsb_exists in E. destruct E as (c & Hc & Hs).
      exists c. split; [assumption | now apply negb_true_iff].
    + exfalso. apply H.
      assert (Forall (fun c => Js.is_space c = true) s) as Hall.
      { apply Forall_forall. intros c Hc.
        destruct (Js.is_space c) eqn:Es; [reflexivity|].
        assert (existsb (fun c => negb (Js.is_space c)) s = true) as E'
          by (apply existsb_exists; exists c; now rewrite Es).
        congruence. }
      assert (Js.trimStart s = []) as Hs.
      { clear -Hall. induction Hall as [|c s Hc _ IH]; simpl; [reflexivity|].
        now rewrite Hc. }
      unfold Js.trim. now rewrite Hs.
  - intros (c & Hc & Hs) H. apply trim_nil in H.
    rewrite Forall_forall in H. rewrite (H c Hc) in Hs. discriminate.
Qed.

(** X2. Every part of a normalized title is a substring of the title, is not
    empty, holds no space, and has a character that is not white space. *)
Theorem titleParts_parts (normalizedTitle0 part : jsstring) :
  In part (titleParts normalizedTitle0) ->
  part <> []
  /\ ~ In 32%N part
  /\ (exists c, In c part /\ Js.is_space c = false)
  /\ exists before rest, normalizedTitle0 = before ++ part ++ rest.
Proof.
  intros H. pose proof (titleParts_substring _ _ H) as Hsub.
  unfold titleParts in H. apply filter_In in H. destruct H as [Hin Hkeep].
  apply andb_true_iff in Hkeep. destruct Hkeep as [Hne Htrim].
  repeat split.
  - destruct part; [discriminate | discriminate].
  - now apply (split_no_separator 32%N normalizedTitle0).
  - apply trim_keeps_a_character. destruct (Js.trim part); discriminate.
  - exact Hsub.
Qed.

Lemma split_without_separator (sep : char) (s : jsstring) :
  ~ In sep s -> Js.split sep s = [s].
Proof.
  induction s as [|c s IH]; simpl; intros H; [reflexivity|].
  assert (N.eqb c sep = false) as ->.
  { apply N.eqb_neq. intros ->. apply H. now left. }
  rewrite IH; [reflexivity|]. intros Hin. apply H. now right.
Qed.

Lemma split_app_separator (sep : char) (piece rest : jsstring) :
  ~ In sep piece ->
  Js.split sep (piece ++ sep :: rest) = piece :: Js.split sep rest.
Proof.
  induction piece as [|c piece IH]; simpl; intros H.
  - now rewrite N.eqb_refl.
  - assert (N.eqb c sep = false) as ->.
    { apply N.eqb_neq. intros ->. apply H. now left. }
    rewrite IH; [reflexivity|]. intros Hin. apply H. now right.
Qed.

Lemma split_join (sep : char) (pieces : list jsstring) :
  pieces <> [] -> Forall (fun piece => ~ In sep piece) pieces ->
  Js.split sep (Js.join [sep] pieces) = pieces.
Proof.
  intros Hne Hall. induction Hall as [|p ps Hp Hps IH].
  - exfalso. now apply Hne.
  - destruct ps as [|q ps'].
    + simpl. now apply split_without_separator.
    + change (Js.join [sep] (p :: q :: ps'))
        with (p ++ sep :: Js.join [sep] (q :: ps')).
      rewrite split_app_separator by assumption.
      rewrite IH; [reflexivity | discriminate].
Qed.

(** X3. Tokens that hold no space and have a character that is not white
    space, joined with single spaces, are given back by [titleParts]. *)
Theorem titleParts_join (tokens : list jsstring) :
  Forall (fun token => ~ In 32%N token
                       /\ exists c, In c token /\ Js.is_space c = false)
         tokens ->
  titleParts (Js.join [32%N] tokens) = tokens.
Proof.
  intros H. destruct tokens as [|t ts]; [reflexivity|].
  unfold titleParts. rewrite split_join; [|discriminate|].
  - apply forallb_filter_id. apply forallb_forall. intros token Hin.
    rewrite Forall_forall in H. destruct (H token Hin) as [_ Hc].
    pose proof (proj2 (trim_keeps_a_character token) Hc) as Htrim.
    destruct Hc as (c & Hc & _).
    destruct token; [contradiction|]. simpl.
    destruct (Js.trim (c0 :: token)); [congruence | reflexivity].
  - eapply Forall_impl; [|exact H]. intros token [Hs _]. exact Hs.
Qed.

(** ** The episode pattern *)

Lemma In_lang_Lit (s w : jsstring) :
  Regex.In_lang (Regex.Lit s) w -> w = s.
Proof.
  revert w. induction s as [|c s IH]; simpl; intros w H.
  - now inversion H.
  - apply In_lang_Chr_Cat in H. destruct H as (v & -> & Hv).
    f_equal. now apply IH.
Qed.

Lemma In_lang_Lit_Cat (s : jsstring) (r : Regex.t) (w : jsstring) :
  Regex.In_lang (Regex.Cat (Regex.Lit s) r) w ->
  exists v, w = s ++ v /\ Regex.In_lang r v.
Proof.
  intros H. inversion H as [| | |? ? u v Hu Hv| | | |]; subst.
  apply In_lang_Lit in Hu. subst u. now exists v.
Qed.

Lemma In_lang_Plus_Class (p : char -> bool) (w : jsstring) :
  Regex.In_lang (Regex.Plus (Regex.Class p)) w ->
  exists d rest, w = d :: rest /\ p d = true.
Proof.
  unfold Regex.Plus. intros H.
  inversion H as [| | |? ? u v Hu Hv| | | |]; subst.
  inversion Hu; subst. now exists c, v.
Qed.

Lemma episodePattern_language (w : jsstring) :
  Regex.In_lang episodePattern w ->
  (exists rest, w = Js.lit "ep" ++ rest)
  \/ (exists d rest, w = 101%N :: d :: rest /\ Js.is_digit d = true).
Proof.
  unfold episodePattern. intros H.
  inversion H as [| | | |? ? ? H1|? ? ? H1| |]; subst; clear H.
  - apply (In_lang_Lit_Cat (Js.lit "e")) in H1. destruct H1 as (v & -> & Hv).
    apply In_lang_Plus_Class in Hv. destruct Hv as (d & rest & -> & Hd).
    right. now exists d, rest.
  - inversion H1 as [| | | |? ? ? H2|? ? ? H2| |]; subst; clear H1.
    + apply (In_lang_Lit (Js.lit "episode")) in H2. subst.
      left. now exists (Js.lit "isode").
    + inversion H2 as [| | | |? ? ? H3|? ? ? H3| |]; subst; clear H2.
      * apply (In_lang_Lit_Cat (Js.lit "episode")) in H3.
        destruct H3 as (v & -> & _).
        left. now exists (Js.lit "isode" ++ v).
      * inversion H3 as [| | | |? ? ? H4|? ? ? H4| |]; subst; clear H3.
        -- apply (In_lang_Lit (Js.lit "ep")) in H4. subst. left. now exists [].
        -- apply (In_lang_Lit_Cat (Js.lit "ep")) in H4.
           destruct H4 as (v & -> & _).
           left. now exists v.
Qed.

Lemma episodePattern_has_mark (part : jsstring) :
  Regex.matches episodePattern part = true <-> has_episode_mark part.
Proof.
  split.
  - intros H. apply matches_sound in H.
    destruct H as (before & w & rest & -> & Hw).
    apply episodePattern_language in Hw.
    destruct Hw as [(t & ->)|(d & t & -> & Hd)].
    + left. exists before, (t ++ rest). now rewrite <- !app_assoc.
    + right. exists before, d, (t ++ rest). split; [reflexivity | assumption].
  - intros [(before & rest & ->)|(before & d & rest & -> & Hd)].
    + apply matches_skip, matches_of_start. simpl.
      apply matches_at_start_nullable. reflexivity.
    + apply matches_skip, matches_of_start. unfold episodePattern. simpl.
      rewrite Hd. apply matches_at_start_nullable. reflexivity.
Qed.

(** X4. The episode pattern is not anchored and its alternatives overlap: a
    string matches it exactly when it holds [ep] somewhere, or [e] followed
    by a digit. *)
Theorem episodePattern_marks (part : jsstring) :
  Regex.matches episodePattern part = true <-> has_episode_mark part.
Proof. apply episodePattern_has_mark. Qed.

Lemma isEpisode_false (result : Candidate) :
  isEpisode result = false
  <-> Regex.matches episodeRangePattern (normalizedTitle result) = true
      \/ forall part, In part (normalizedTitleParts result) ->
                      ~ has_episode_mark part.
Proof.
  unfold isEpisode.
  destruct (Regex.matches episodeRangePattern (normalizedTitle result)) eqn:Er.
  - split; [now left|]. intros _.
    induction (normalizedTitleParts result) as [|p ps IH]; simpl;
      [reflexivity | now rewrite andb_false_r].
  - split.
    + intros H. right. intros part Hin Hmark.
      apply episodePattern_has_mark in Hmark.
      assert (existsb
                (fun titlePart =>
                   Regex.matches episodePattern titlePart && negb false)
                (normalizedTitleParts result) = true) as E.
      { apply existsb_exists. exists part. split; [assumption|].
        now rewrite Hmark. }
      congruence.
    + intros [H|H]; [discriminate|].
      destruct (existsb _ (normalizedTitleParts result)) eqn:E; [|reflexivity].
      apply existsb_exists in E. destruct E as (part & Hin & Hm).
      apply andb_true_iff in Hm. destruct Hm as [Hm _].
      apply episodePattern_has_mark in Hm. exfalso. now apply (H part).
Qed.

(** X5. For a season request that is not manual, a candidate passes the filter
    exactly when its size is below the bound, its seeders are non-negative
    and more than its peers, and either its title holds an episode range or
    none of its title parts holds [ep] or [e] followed by a digit.  The tag
    plays no part. *)
Theorem acceptable_season (maxSize0 : option Z) (result : Candidate) :
  acceptable maxSize0 true false result = true
  <-> (match maxSize0 with
       | Some bound => (size result < bound)%Z
       | None => True
       end)
      /\ (0 <= seeders result)%Z
      /\ (peers result < seeders result)%Z
      /\ (Regex.matches episodeRangePattern (normalizedTitle result) = true
          \/ forall part, In part (normalizedTitleParts result) ->
                          ~ has_episode_mark part).
Proof.
  unfold acceptable, hasAcceptableSize, hasSeeders, below.
  rewrite !andb_true_iff, negb_true_iff, isEpisode_false, Z.leb_le, Z.ltb_lt.
  destruct maxSize0 as [bound|]; [rewrite Z.ltb_lt|]; intuition.
Qed.

(** ** What [searchIndexer] returns *)

Lemma find_by_key {A : Type} (key : A -> jsstring) (l : list A) (x : A) :
  NoDup (List.map key l) -> In x l ->
  find (fun y => Js.eqb (key y) (key x)) l = Some x.
Proof.
  induction l as [|y l IH]; simpl; intros Hnd Hin; [contradiction|].
  inversion Hnd as [|? ? Hnotin Hnd']; subst.
  destruct Hin as [->|Hin].
  - now rewrite jsstring_eqb_refl.
  - destruct (Js.eqb (key y) (key x)) eqn:E.
    + apply jsstring_eqb_eq in E. exfalso. apply Hnotin. rewrite E.
      now apply in_map.
    + now apply IH.
Qed.

(** The hits that [uniqBy] keeps are the first hits of their identifiers. *)
Lemma uniqBy_In_first (hits : list JackettResult) (hit : JackettResult) :
  In hit (Lodash.uniqBy hits Guid)
  <-> find (fun h => Js.eqb (Guid h) (Guid hit)) hits = Some hit.
Proof.
  unfold Lodash.uniqBy.
  rewrite <- (@baseUniq_first _ Guid (Guid hit) hits [] (fun H => H)).
  split.
  - intros H. apply find_by_key; [apply baseUniq_NoDup | exact H].
  - intros H. apply find_some in H. tauto.
Qed.

Section SearchIndexerFacts.

Context {host : Host}.

(** X6. [searchIndexer] returns a candidate exactly when it is built from the
    first hit of the answers that carries its identifier, that hit has a link
    or a magnet URI, and the candidate passes the filter.  Deduplication
    comes before the test of the links: a first hit without link hides the
    later hits with the same identifier. *)
Theorem searchIndexer_membership (queries : list jsstring)
    (indexer0 : option JackettIndexer) (opts : Options) (c : Candidate) :
  In c (searchIndexer queries indexer0 opts)
  <-> exists hit,
        find (fun h => Js.eqb (Guid h) (id c))
             (concat (rawResults queries indexer0)) = Some hit
        /\ hasLink hit = true
        /\ c = formatSearchResult hit qualityParams preferredTags
        /\ acceptable (maxSize opts) (or_default (isSeason opts) false)
             (or_default (withoutFilter opts) false) c = true.
Proof.
  unfold searchIndexer. rewrite filter_In, in_map_iff. split.
  - intros [(hit & <- & Hin) Hacc].
    apply filter_In in Hin. destruct Hin as [Hin Hlink].
    apply uniqBy_In_first in Hin.
    exists hit. repeat split; assumption.
  - intros (hit & Hfind & Hlink & -> & Hacc). split; [|assumption].
    exists hit. split; [reflexivity|].
    apply filter_In. split; [|assumption].
    apply uniqBy_In_first. exact Hfind.
Qed.

(** X7. A request that fails counts as an empty answer: when every request
    of an indexer fails, [searchIndexer] returns no candidate, and does not
    fail. *)
Theorem searchIndexer_requests_fail (queries : list jsstring)
    (indexer0 : option JackettIndexer) (opts : Options) :
  (forall query, In query queries -> request indexer0 query = None) ->
  searchIndexer queries indexer0 opts = [].
Proof.
  intros H.
  assert (concat (rawResults queries indexer0) = []) as E.
  { unfold rawResults.
    assert (forall query, In query (Lodash.uniq queries) ->
                          request indexer0 query = None) as H'.
    { intros query Hq. apply H. unfold Lodash.uniq in Hq.
      eapply baseUniq_incl. exact Hq. }
    induction (Lodash.uniq queries) as [|q qs IH]; [reflexivity|].
    simpl. rewrite (H' q (or_introl eq_refl)). simpl.
    apply IH. intros query Hq. apply H'. now right. }
  unfold searchIndexer. rewrite E. reflexivity.
Qed.

End SearchIndexerFacts.

Lemma baseUniq_keeps_keys {A : Type} (iteratee : A -> jsstring) (array : list A) :
  forall seen x,
    In x array -> ~ In (iteratee x) seen ->
    exists y, In y (Lodash.baseUniq iteratee seen array)
              /\ iteratee y = iteratee x.
Proof.
  induction array as [|value rest IH]; simpl; intros seen x Hin Hseen;
    [contradiction|].
  destruct (Js.mem (iteratee value) seen) eqn:E.
  - destruct Hin as [->|Hin].
    + apply jsstring_mem_In in E. contradiction.
    + now apply IH.
  - destruct Hin as [->|Hin].
    + exists x. split; [now left | reflexivity].
    + destruct (Js.eqb (iteratee value) (iteratee x)) eqn:Ek.
      * apply jsstring_eqb_eq in Ek. exists value. split; [now left | assumption].
      * apply jsstring_eqb_neq in Ek.
        destruct (IH (iteratee value :: seen) x Hin) as (y & Hy & Ey).
        -- intros [H|H]; [congruence | contradiction].
        -- exists y. split; [now right | assumption].
Qed.

Lemma baseUniq_all_seen {A : Type} (iteratee : A -> jsstring) (array : list A) :
  forall seen,
    (forall x, In x array -> In (iteratee x) seen) ->
    Lodash.baseUniq iteratee seen array = [].
Proof.
  induction array as [|value rest IH]; simpl; intros seen H; [reflexivity|].
  assert (Js.mem (iteratee value) seen = true) as ->
    by (apply jsstring_mem_In; apply H; now left).
  apply IH. intros x Hx. apply H. now right.
Qed.

Lemma baseUniq_app_known {A : Type} (iteratee : A -> jsstring)
    (array more : list A) :
  forall seen,
    (forall x, In x more ->
       In (iteratee x) seen
       \/ exists y, In y array /\ iteratee y = iteratee x) ->
    Lodash.baseUniq iteratee seen (array ++ more)
    = Lodash.baseUniq iteratee seen array.
Proof.
  induction array as [|value rest IH]; simpl; intros seen H.
  - apply baseUniq_all_seen. intros x Hx.
    destruct (H x Hx) as [Hs|(y & [] & _)]. exact Hs.
  - destruct (Js.mem (iteratee value) seen) eqn:E.
    + apply IH. intros x Hx. destruct (H x Hx) as [Hs|(y & [->|Hy] & Ey)].
      * now left.
      * left. rewrite <- Ey. now apply jsstring_mem_In.
      * right. now exists y.
    + f_equal. apply IH. intros x Hx.
      destruct (H x Hx) as [Hs|(y & [->|Hy] & Ey)].
      * left. now right.
      * left. left. exact Ey.
      * right. now exists y.
Qed.

Lemma uniq_In (l : list jsstring) (x : jsstring) :
  In x (Lodash.uniq l) <-> In x l.
Proof.
  unfold Lodash.uniq. split.
  - apply baseUniq_incl.
  - intros H.
    destruct (@baseUniq_keeps_keys _ (fun value : jsstring => value) l [] x H)
      as (y & Hy & Ey); [intros []|].
    simpl in Ey. now subst.
Qed.

Section RepeatedQueries.

Context {host : Host}.

Lemma searchIndexer_app_known (queries more : list jsstring)
    (indexer0 : option JackettIndexer) (opts : Options) :
  (forall query, In query more -> In query queries) ->
  searchIndexer (queries ++ more) indexer0 opts
  = searchIndexer queries indexer0 opts.
Proof.
  intros H. unfold searchIndexer, rawResults, Lodash.uniq.
  rewrite baseUniq_app_known; [reflexivity|].
  intros x Hx. right. exists x. split; [now apply H | reflexivity].
Qed.


(** X8. [searchIndexer] sends every query of the list, and none twice; so
    queries that are already in the list, added at its end, change nothing
    in what it returns. *)
Theorem searchIndexer_repeated_queries (queries more : list jsstring)
    (indexer0 : option JackettIndexer) (opts : Options) :
  NoDup (Lodash.uniq queries)
  /\ (forall query, In query (Lodash.uniq queries) <-> In query queries)
  /\ ((forall query, In query more -> In query queries) ->
      searchIndexer (queries ++ more) indexer0 opts
      = searchIndexer queries indexer0 opts).
Proof.
  split; [|split].
  - unfold Lodash.uniq. rewrite <- (map_id (Lodash.baseUniq _ _ _)).
    apply (baseUniq_NoDup (fun value : jsstring => value)).
  - intros query. apply uniq_In.
  - apply searchIndexer_app_known.
Qed.

End RepeatedQueries.

(** ** Filtering and ranking *)

Section SortingAndFiltering.

Variable A : Type.
Variable comparer : A -> A -> comparison.

Hypothesis comparer_sym : forall x y, comparer y x = CompOpp (comparer x y).
Hypothesis comparer_trans :
  forall x y z, comparer x y = Lt -> comparer y z = Lt -> comparer x z = Lt.
Hypothesis comparer_eq_l :
  forall x y z, comparer x y = Eq -> comparer x z = comparer y z.

Lemma sort_insert_first (x : A) (sorted : list A) :
  Forall (not_after comparer x) sorted ->
  Lodash.sort_insert comparer x sorted = x :: sorted.
Proof.
  intros H. destruct sorted as [|y rest]; [reflexivity|].
  inversion H as [|? ? Hxy _]; subst. unfold not_after in Hxy. simpl.
  destruct (comparer x y); congruence.
Qed.

Lemma sort_insert_filter_commute (p : A -> bool) (x : A) (sorted : list A) :
  StronglySorted (not_after comparer) sorted ->
  filter p (Lodash.sort_insert comparer x sorted)
  = if p x then Lodash.sort_insert comparer x (filter p sorted)
    else filter p sorted.
Proof.
  induction 1 as [|y rest Hrest IH Hy]; simpl.
  - destruct (p x); reflexivity.
  - destruct (comparer x y) eqn:E.
    1, 2: assert (Forall (not_after comparer x) (y :: rest)) as Hx
        by (constructor; [unfold not_after; congruence|];
            eapply Forall_impl; [|exact Hy]; intros z Hz;
            apply (not_after_trans comparer_sym comparer_trans comparer_eq_l)
              with y; [unfold not_after; congruence | exact Hz]).
    1, 2: change (filter p (x :: y :: rest))
        with (if p x then x :: filter p (y :: rest) else filter p (y :: rest));
      destruct (p x); [|reflexivity];
      symmetry; apply sort_insert_first;
      apply Forall_forall; intros z Hz; apply filter_In in Hz;
      rewrite Forall_forall in Hx; apply Hx; tauto.
    simpl. rewrite IH. destruct (p y), (p x); simpl; try reflexivity.
    now rewrite E.
Qed.

Lemma sort_filter_commute (p : A -> bool) (array : list A) :
  filter p (Lodash.sort comparer array)
  = Lodash.sort comparer (filter p array).
Proof.
  induction array as [|x array IH]; simpl; [reflexivity|].
  rewrite sort_insert_filter_commute
    by (apply sort_sorted; assumption).
  rewrite IH. destruct (p x); reflexivity.
Qed.

End SortingAndFiltering.

Lemma orderBy_filter_commute (p : Candidate -> bool) (collection : list Candidate) :
  filter p (orderBy collection) = orderBy (filter p collection).
Proof.
  rewrite !orderBy_sort.
  apply sort_filter_commute;
    first [ exact compareCandidates_sym | exact compareCandidates_trans
          | exact compareCandidates_eq_l ].
Qed.

(** X9. Ranking and filtering commute: the ranking of the candidates that
    satisfy a condition is the ranking of all candidates with the others
    taken out. *)
Theorem orderBy_filter (p : Candidate -> bool) (collection : list Candidate) :
  orderBy (filter p collection) = filter p (orderBy collection).
Proof. symmetry. apply orderBy_filter_commute. Qed.

(** ** A search in which every indexer answers *)

Section SearchFacts.

Context {host : Host}.

Lemma PromiseRaceAll_fulfilled {A : Type} (results : list A) :
  PromiseRaceAll (List.map (@Fulfilled A) results)
  = Return (List.map Some results).
Proof.
  destruct results as [|a results]; [reflexivity|].
  unfold PromiseRaceAll. simpl. f_equal. f_equal.
  induction results as [|b results IH]; simpl; [reflexivity | now rewrite IH].
Qed.

Lemma keep_truthy_Some {A : Type} (results : list A) :
  keep_truthy (List.map Some results) = results.
Proof.
  induction results as [|a results IH]; simpl; [reflexivity | now rewrite IH].
Qed.

Lemma search_all_fulfilled (indexers : list JackettIndexer)
    (queries : list jsstring) (opts : Options) :
  (forall indexer0, In indexer0 indexers -> fate indexer0 = Fulfilled tt) ->
  search indexers queries opts
  = Return (if or_default (withoutFilter opts) false
            then List.map Some (orderBy (all_candidates indexers queries opts))
            else [nth_error (orderBy (all_candidates indexers queries opts)) 0]).
Proof.
  intros H. unfold search.
  assert (List.map
            (fun indexer0 =>
               match fate indexer0 with
               | Fulfilled _ => Fulfilled (searchIndexer queries (Some indexer0) opts)
               | Rejected e => Rejected e
               | Pending => Pending
               end) indexers
          = List.map (@Fulfilled (list Candidate))
              (List.map (fun indexer0 => searchIndexer queries (Some indexer0) opts)
                 indexers)) as ->.
  { rewrite map_map. apply map_ext_in. intros i Hi. now rewrite (H i Hi). }
  unfold search_settled. rewrite PromiseRaceAll_fulfilled, keep_truthy_Some.
  reflexivity.
Qed.

(** X10. When every indexer answers in time, a manual search returns all the
    candidates of all indexers, ranked: nothing is dropped and nothing is
    added. *)
Theorem search_manual_ranking (indexers : list JackettIndexer)
    (queries : list jsstring) (opts : Options) :
  (forall indexer0, In indexer0 indexers -> fate indexer0 = Fulfilled tt) ->
  withoutFilter opts = Some true ->
  exists ranked,
    search indexers queries opts = Return (List.map Some ranked)
    /\ Permutation ranked (all_candidates indexers queries opts)
    /\ StronglySorted ranks_no_lower ranked.
Proof.
  intros Hfate Hmanual. rewrite (search_all_fulfilled _ _ _ Hfate), Hmanual.
  exists (orderBy (all_candidates indexers queries opts)).
  split; [reflexivity|]. apply orderBy_sorted_permutation.
Qed.

(** X11. When every indexer answers in time and at least one candidate passes
    the filter, an automated search returns one candidate, which is one of
    those that passed and which none of the others outranks. *)
Theorem search_automatic_best (indexers : list JackettIndexer)
    (queries : list jsstring) (opts : Options) :
  (forall indexer0, In indexer0 indexers -> fate indexer0 = Fulfilled tt) ->
  or_default (withoutFilter opts) false = false ->
  all_candidates indexers queries opts <> [] ->
  exists best others,
    search indexers queries opts = Return [Some best]
    /\ Permutation (best :: others) (all_candidates indexers queries opts)
    /\ Forall (ranks_no_lower best) others.
Proof.
  intros Hfate Hauto Hne. rewrite (search_all_fulfilled _ _ _ Hfate), Hauto.
  destruct (orderBy_sorted_permutation (all_candidates indexers queries opts))
    as [Hperm Hsorted].
  destruct (orderBy (all_candidates indexers queries opts)) as [|best others].
  - apply Permutation_nil in Hperm. contradiction.
  - exists best, others. inversion Hsorted; subst. auto.
Qed.

Lemma filter_all {A : Type} (l : list A) : filter (fun _ => true) l = l.
Proof. induction l as [|x l IH]; simpl; [reflexivity | now rewrite IH]. Qed.

Lemma searchIndexer_manual_of (queries : list jsstring)
    (indexer0 : option JackettIndexer) (opts : Options) :
  searchIndexer queries indexer0 opts
  = filter (acceptable (maxSize opts) (or_default (isSeason opts) false)
              (or_default (withoutFilter opts) false))
      (searchIndexer queries indexer0 (manual_of opts)).
Proof.
  unfold searchIndexer, manual_of. simpl.
  change (acceptable (maxSize opts) (or_default (isSeason opts) false) true)
    with (fun _ : Candidate => true).
  now rewrite filter_all.
Qed.

Lemma all_candidates_manual_of (indexers : list JackettIndexer)
    (queries : list jsstring) (opts : Options) :
  all_candidates indexers queries opts
  = filter (acceptable (maxSize opts) (or_default (isSeason opts) false)
              (or_default (withoutFilter opts) false))
      (all_candidates indexers queries (manual_of opts)).
Proof.
  unfold all_candidates. rewrite <- concat_filter_map, map_map.
  f_equal. apply map_ext. intros i. apply searchIndexer_manual_of.
Qed.

(** X12. When every indexer answers in time, the automated search picks the
    first entry of the manual ranking (same queries, same bounds) that passes
    the filter. *)
Theorem search_automatic_of_manual (indexers : list JackettIndexer)
    (queries : list jsstring) (opts : Options) :
  (forall indexer0, In indexer0 indexers -> fate indexer0 = Fulfilled tt) ->
  or_default (withoutFilter opts) false = false ->
  exists ranked,
    search indexers queries (manual_of opts) = Return (List.map Some ranked)
    /\ search indexers queries opts
       = Return [nth_error
                   (filter (acceptable (maxSize opts)
                              (or_default (isSeason opts) false) false)
                      ranked) 0].
Proof.
  intros Hfate Hauto.
  exists (orderBy (all_candidates indexers queries (manual_of opts))).
  rewrite !(search_all_fulfilled _ _ _ Hfate), Hauto. simpl.
  split; [reflexivity|].
  rewrite all_candidates_manual_of, Hauto, <- orderBy_filter_commute.
  reflexivity.
Qed.

End SearchFacts.

(** ** Tags and the filter *)

Section FilterFacts.

Context {host : Host}.

Lemma parseTag_unmatched (tokens : list jsstring) (tags : list Tag) :
  Forall (fun part => part <> []) tokens ->
  (forall tag, In tag tags -> ~ In (toLowerCase (tag_name tag)) tokens) ->
  parseTag tokens tags
  = {| label := Js.lit "unknown";
       score := if (0 <? Z.of_nat (length tags))%Z then 0 else 1 |}.
Proof.
  intros Hne Hnone. unfold parseTag. rewrite find_all_false; [reflexivity|].
  intros tag Htag. rewrite find_truthy_mem by assumption.
  apply jsstring_mem_not_In. now apply Hnone.
Qed.

Lemma parseTag_matched (tokens : list jsstring) (before after : list Tag)
    (tag : Tag) :
  Forall (fun part => part <> []) tokens ->
  (forall earlier, In earlier before ->
                   ~ In (toLowerCase (tag_name earlier)) tokens) ->
  In (toLowerCase (tag_name tag)) tokens ->
  parseTag tokens (before ++ tag :: after)
  = {| label := tag_name tag; score := tag_score tag |}.
Proof.
  intros Hne Hbefore Hin. unfold parseTag.
  rewrite find_first_true; [reflexivity| |].
  - intros earlier He. rewrite find_truthy_mem by assumption.
    apply jsstring_mem_not_In. now apply Hbefore.
  - rewrite find_truthy_mem by assumption. now apply jsstring_mem_In.
Qed.

(** X13. How the tags decide in a request that is neither for a season nor
    manual.  With no tag rule configured, a hit passes on its size and
    seeders alone.  With rules configured, a hit none of whose title parts is
    the lowercased name of a rule is rejected, and so is a hit whose first
    matching rule has a score that is not positive. *)
Theorem tags_in_the_filter (hit : JackettResult) (qualities : list Quality)
    (tags : list Tag) (maxSize0 : option Z) :
  acceptable maxSize0 false false (formatSearchResult hit qualities [])
  = below (Size hit) maxSize0
    && ((0 <=? Seeders hit) && (Peers hit <? Seeders hit))%Z
  /\ (tags <> [] ->
      (forall tag, In tag tags ->
         ~ In (toLowerCase (tag_name tag)) (titleParts (sanitize (Title hit)))) ->
      acceptable maxSize0 false false (formatSearchResult hit qualities tags)
      = false)
  /\ (forall before tag after,
        tags = before ++ tag :: after ->
        (forall earlier, In earlier before ->
           ~ In (toLowerCase (tag_name earlier))
                (titleParts (sanitize (Title hit)))) ->
        In (toLowerCase (tag_name tag)) (titleParts (sanitize (Title hit))) ->
        (tag_score tag <= 0)%Z ->
        acceptable maxSize0 false false (formatSearchResult hit qualities tags)
        = false).
Proof.
  split; [|split].
  - unfold acceptable, hasAcceptableSize, hasSeeders, hasTag. simpl.
    apply andb_true_r.
  - intros Hne Hnone. unfold acceptable, hasTag. simpl.
    rewrite parseTag_unmatched;
      [|apply titleParts_nonempty | assumption].
    destruct tags; [congruence|]. simpl. apply andb_false_r.
  - intros before tag after -> Hbefore Hin Hscore.
    unfold acceptable, hasTag. simpl.
    rewrite parseTag_matched;
      [|apply titleParts_nonempty | assumption | assumption].
    simpl. assert ((0 <? tag_score tag)%Z = false) as ->
      by (apply Z.ltb_ge; assumption).
    apply andb_false_r.
Qed.

Lemma rawResults_In (queries : list jsstring) (indexer0 : option JackettIndexer)
    (hit : JackettResult) :
  In hit (concat (rawResults queries indexer0)) ->
  exists query hits, request indexer0 query = Some hits /\ In hit hits.
Proof.
  unfold rawResults. intros H. apply in_concat in H.
  destruct H as (hits & Hhits & Hin). apply in_map_iff in Hhits.
  destruct Hhits as (query & E & _).
  destruct (request indexer0 query) as [data|] eqn:Er.
  - exists query, data. split; [exact Er | now rewrite E].
  - rewrite <- E in Hin. contradiction.
Qed.

(** X14. A season without episodes never gets a candidate: the size bound is
    the bound of one episode times the number of episodes, so it is 0, and
    when no hit has a negative size the search returns what it returns when
    nothing passes the filter. *)
Theorem searchSeason_without_episodes (formatNumber : Z -> jsstring)
    (indexers : list JackettIndexer) (maxSize0 : Z)
    (tvShow_title enTVShow_title tvShow_originalTitle : jsstring)
    (seasonNumber : Z) :
  (forall indexer0, In indexer0 indexers -> fate indexer0 = Fulfilled tt) ->
  (forall indexer0 query hits hit,
     request indexer0 query = Some hits -> In hit hits -> (0 <= Size hit)%Z) ->
  searchSeason formatNumber indexers maxSize0 tvShow_title enTVShow_title
    tvShow_originalTitle seasonNumber 0
  = Return [None].
Proof.
  intros Hfate Hsizes. unfold searchSeason.
  rewrite (search_all_fulfilled _ _ _ Hfate). simpl.
  assert (all_candidates indexers
            (searchSeason_queries formatNumber tvShow_title enTVShow_title
               tvShow_originalTitle seasonNumber)
            {| maxSize := Some (maxSize0 * 0)%Z; isSeason := Some true;
               withoutFilter := None |} = []) as ->; [|reflexivity].
  unfold all_candidates. apply concat_nil_Forall, Forall_forall.
  intros l Hl. apply in_map_iff in Hl. destruct Hl as (i & <- & _).
  destruct (searchIndexer _ (Some i) _) as [|c l'] eqn:E; [reflexivity|].
  exfalso.
  assert (In c (searchIndexer
                  (searchSeason_queries formatNumber tvShow_title
                     enTVShow_title tvShow_originalTitle seasonNumber)
                  (Some i)
                  {| maxSize := Some (maxSize0 * 0)%Z; isSeason := Some true;
                     withoutFilter := None |})) as Hc
    by (rewrite E; now left).
  pose proof Hc as Hc'. apply searchIndexer_from_linked_hit in Hc'.
  destruct Hc' as (hit & Hhit & -> & _).
  apply rawResults_In in Hhit. destruct Hhit as (query & hits & Hr & Hin).
  specialize (Hsizes _ _ _ _ Hr Hin).
  unfold searchIndexer in Hc. apply filter_In in Hc. destruct Hc as [_ Hacc].
  simpl in Hacc. unfold acceptable, hasAcceptableSize, below in Hacc.
  simpl in Hacc. rewrite !andb_true_iff in Hacc.
  destruct Hacc as [[Hsize _] _]. apply Z.ltb_lt in Hsize. lia.
Qed.

End FilterFacts.

(** ** More on transliteration *)

Lemma toLatin_one (c : char) (s : jsstring) :
  toLatin (c :: s) = toLatin [c] ++ toLatin s.
Proof. apply (toLatin_app [c] s). Qed.

Lemma toLatin_outside_table (c : char) :
  Js.mem [c] cyrillic = false -> toLatin [c] = [c].
Proof.
  intros H. apply jsstring_mem_not_In in H.
  apply toLatin_identity. constructor; [assumption | constructor].
Qed.

Lemma table_outputs_checked :
  forallb
    (fun entry =>
       forallb (fun d => negb (Js.mem [d] cyrillic)) (toLatin entry))
    cyrillic = true.
Proof. vm_compute. reflexivity. Qed.

Lemma toLatin_one_outside (c : char) :
  Forall (fun d => ~ In [d] cyrillic) (toLatin [c]).
Proof.
  destruct (Js.mem [c] cyrillic) eqn:E.
  - apply jsstring_mem_In in E.
    pose proof table_outputs_checked as H.
    rewrite forallb_forall in H. specialize (H [c] E).
    rewrite forallb_forall in H. apply Forall_forall. intros d Hd.
    apply jsstring_mem_not_In. apply negb_true_iff. now apply H.
  - rewrite (@toLatin_outside_table c E).
    constructor; [now apply jsstring_mem_not_In | constructor].
Qed.

(** X15. Transliterating twice is transliterating once: no output of the
    table is a letter of its Cyrillic alphabet. *)
Theorem toLatin_idempotent (text : jsstring) :
  toLatin (toLatin text) = toLatin text.
Proof.
  apply toLatin_identity.
  induction text as [|c text IH]; [constructor|].
  rewrite toLatin_one. apply Forall_app. split; [apply toLatin_one_outside | exact IH].
Qed.

Lemma table_positions_checked :
  forallb
    (fun i => Js.eqb (toLatin (nth i cyrillic [])) (nth i latin []))
    (seq 0 (length cyrillic)) = true.
Proof. vm_compute. reflexivity. Qed.

Lemma table_distinct_checked : Lodash.uniq cyrillic = cyrillic.
Proof. vm_compute. reflexivity. Qed.

(** X16. The two alphabets of [toLatin] are in step: they have the same
    length, no Cyrillic letter is listed twice, every entry of the Cyrillic
    alphabet is one character, and the letter at a position is rendered as
    the entry of the Latin alphabet at that position. *)
Theorem toLatin_table_in_step :
  length cyrillic = length latin
  /\ NoDup cyrillic
  /\ Forall (fun entry => length entry = 1%nat) cyrillic
  /\ forall i, (i < length cyrillic)%nat ->
               toLatin (nth i cyrillic []) = nth i latin [].
Proof.
  split; [vm_compute; reflexivity|]. split; [|split].
  - rewrite <- table_distinct_checked. unfold Lodash.uniq.
    rewrite <- (map_id (Lodash.baseUniq _ _ _)).
    apply (baseUniq_NoDup (fun value : jsstring => value)).
  - apply Forall_forall. intros entry H.
    assert (forallb (fun e => Nat.eqb (length e) 1) cyrillic = true) as Hc
      by (vm_compute; reflexivity).
    rewrite forallb_forall in Hc. apply Nat.eqb_eq. now apply Hc.
  - intros i Hi. pose proof table_positions_checked as H.
    rewrite forallb_forall in H. apply jsstring_eqb_eq. apply H.
    apply in_seq. lia.
Qed.

Lemma codePoints_two (hi lo : char) (rest : jsstring) :
  codePoints (hi :: lo :: rest)
  = if ((0xD800 <=? hi) && (hi <=? 0xDBFF)
        && (0xDC00 <=? lo) && (lo <=? 0xDFFF))%N
    then (0x10000 + (hi - 0xD800) * 0x400 + (lo - 0xDC00))%N :: codePoints rest
    else hi :: codePoints (lo :: rest).
Proof. reflexivity. Qed.

(** A character below the surrogates is a code point of every string that
    holds it. *)
Lemma codePoints_In_bmp (c : char) :
  (c < 0xD800)%N ->
  forall n s, (length s <= n)%nat -> In c s -> In c (codePoints s).
Proof.
  intros Hc. induction n as [|n IH]; intros s Hlen Hin.
  - destruct s; [contradiction | simpl in Hlen; lia].
  - destruct s as [|hi [|lo rest]]; [contradiction | exact Hin |].
    rewrite codePoints_two.
    destruct ((0xD800 <=? hi) && (hi <=? 0xDBFF)
              && (0xDC00 <=? lo) && (lo <=? 0xDFFF))%N eqn:E.
    + rewrite !andb_true_iff, !N.leb_le in E.
      right. destruct Hin as [->|[->|Hin]]; [lia | lia |].
      apply IH in Hin; [exact Hin | simpl in Hlen; lia].
    + destruct Hin as [->|Hin]; [now left | right].
      apply IH; [simpl in *; lia | exact Hin].
Qed.

Lemma isLatin_refuses (c : char) (text : jsstring) :
  (c < 0xD800)%N -> hasNonLatin_class c = true -> In c text ->
  isLatin text = false.
Proof.
  intros Hc Hclass Hin. rewrite isLatin_forallb.
  apply (@codePoints_In_bmp c Hc (length text) text (le_n _)) in Hin.
  destruct (forallb _ (codePoints text)) eqn:E; [|reflexivity].
  rewrite forallb_forall in E. specialize (E c Hin).
  rewrite Hclass in E. discriminate.
Qed.

Lemma signs_checked :
  forallb
    (fun c =>
       existsb (fun d => existsb (N.eqb d) modifier_primes) (toLatin [c]))
    cyrillic_signs = true.
Proof. vm_compute. reflexivity. Qed.

Lemma toLatin_sign (c : char) (text : jsstring) :
  In c cyrillic_signs -> In c text ->
  exists prime, In prime modifier_primes /\ In prime (toLatin text).
Proof.
  intros Hsign Hin. apply in_split in Hin. destruct Hin as (u & v & ->).
  pose proof signs_checked as H. rewrite forallb_forall in H.
  specialize (H c Hsign). apply existsb_exists in H.
  destruct H as (d & Hd & Hp). apply existsb_In in Hp.
  exists d. split; [assumption|].
  rewrite toLatin_app, toLatin_one. apply in_or_app. right.
  apply in_or_app. now left.
Qed.

(** X17. An original title that holds a hard or a soft sign is never searched
    for: its transliteration is not Latin for [isLatin], and the movie is
    searched by its title alone. *)
Theorem searchMovie_queries_sign
    (movie_title movie_originalTitle year : jsstring) (c : char) :
  In c cyrillic_signs -> In c movie_originalTitle ->
  isLatin (toLatin movie_originalTitle) = false
  /\ searchMovie_queries movie_title movie_originalTitle year
     = [movie_title ++ Js.lit " " ++ year].
Proof.
  intros Hsign Hin.
  assert (isLatin (toLatin movie_originalTitle) = false) as E.
  { destruct (@toLatin_sign c movie_originalTitle Hsign Hin) as (prime & Hp & Hin').
    apply (@isLatin_refuses prime (toLatin movie_originalTitle)); [| |exact Hin'];
      destruct Hp as [<-|[<-|[]]]; vm_compute; reflexivity. }
  split; [exact E|]. unfold searchMovie_queries. now rewrite E.
Qed.

Lemma table_latin_checked :
  forallb
    (fun entry =>
       match entry with
       | [c] => hasNonLatin_class c
                && (existsb (N.eqb c) cyrillic_signs
                    || forallb latin_allowed (toLatin [c]))
       | _ => false
       end)
    cyrillic = true.
Proof. vm_compute. reflexivity. Qed.

Lemma toLatin_one_allowed (c : char) :
  (In [c] cyrillic /\ ~ In c cyrillic_signs) \/ latin_allowed c = true ->
  forallb latin_allowed (toLatin [c]) = true.
Proof.
  intros H. destruct (Js.mem [c] cyrillic) eqn:E.
  - apply jsstring_mem_In in E.
    pose proof table_latin_checked as Ht. rewrite forallb_forall in Ht.
    specialize (Ht [c] E). simpl in Ht.
    apply andb_true_iff in Ht. destruct Ht as [Hclass Ht].
    destruct H as [[_ Hnot]|Hallowed].
    + apply orb_true_iff in Ht. destruct Ht as [Ht|Ht]; [|exact Ht].
      exfalso. apply Hnot. now apply existsb_In.
    + unfold latin_allowed in Hallowed. rewrite Hclass in Hallowed.
      discriminate.
  - rewrite (@toLatin_outside_table c E). simpl.
    destruct H as [[Hin _]|Hallowed].
    + apply jsstring_mem_not_In in E. contradiction.
    + now rewrite Hallowed.
Qed.

(** X18. An original title made of letters of the Cyrillic alphabet of the
    table other than the signs, and of characters that [isLatin] accepts,
    is searched for in transliteration: the movie gets two queries. *)
Theorem searchMovie_queries_transliterated
    (movie_title movie_originalTitle year : jsstring) :
  Forall (fun c => (In [c] cyrillic /\ ~ In c cyrillic_signs)
                   \/ latin_allowed c = true)
         movie_originalTitle ->
  isLatin (toLatin movie_originalTitle) = true
  /\ searchMovie_queries movie_title movie_originalTitle year
     = [movie_title ++ Js.lit " " ++ year;
        toLatin movie_originalTitle ++ Js.lit " " ++ year].
Proof.
  intros H.
  assert (forallb latin_allowed (toLatin movie_originalTitle) = true) as Hall.
  { induction H as [|c text Hc _ IH]; [reflexivity|].
    rewrite toLatin_one, forallb_app, IH, (@toLatin_one_allowed c Hc).
    reflexivity. }
  assert (isLatin (toLatin movie_originalTitle) = true) as E.
  { rewrite forallb_forall in Hall.
    rewrite isLatin_forallb, codePoints_bmp.
    - apply forallb_forall. intros d Hd. specialize (Hall d Hd).
      unfold latin_allowed in Hall. apply andb_true_iff in Hall. tauto.
    - apply Forall_forall. intros d Hd. specialize (Hall d Hd).
      unfold latin_allowed in Hall. apply andb_true_iff in Hall.
      apply N.ltb_lt. tauto. }
  split; [exact E|]. unfold searchMovie_queries. now rewrite E.
Qed.

(** ** The queries of a season and of an episode *)

Lemma baseUniq_length {A : Type} (iteratee : A -> jsstring) (array : list A) :
  forall seen, (length (Lodash.baseUniq iteratee seen array) <= length array)%nat.
Proof.
  induction array as [|value rest IH]; simpl; intros seen; [lia|].
  destruct (Js.mem (iteratee value) seen); simpl.
  - specialize (IH seen). lia.
  - specialize (IH (iteratee value :: seen)). lia.
Qed.

Lemma uniq_titles_of (tvShow_title enTVShow_title tvShow_originalTitle : jsstring) :
  (1 <= length (Lodash.uniq
                  (titles_of tvShow_title enTVShow_title tvShow_originalTitle))
   <= 3)%nat.
Proof.
  split.
  - unfold titles_of, Lodash.uniq.
    destruct (isLatin (toLatin tvShow_originalTitle)); simpl; lia.
  - unfold Lodash.uniq.
    pose proof (baseUniq_length (fun value : jsstring => value)
                  (titles_of tvShow_title enTVShow_title tvShow_originalTitle) [])
      as H.
    unfold titles_of in *.
    destruct (isLatin (toLatin tvShow_originalTitle)); simpl in *; lia.
Qed.

Lemma concat_map_length {A B : Type} (f : A -> list B) (k : nat) (l : list A) :
  (forall x, length (f x) = k) ->
  length (concat (List.map f l)) = (k * length l)%nat.
Proof.
  intros H. induction l as [|x l IH]; simpl; [lia|].
  rewrite length_app, H, IH. lia.
Qed.

Lemma remove_first_absent (c : char) (s : jsstring) :
  ~ In c s -> remove_first c s = s.
Proof.
  induction s as [|d s IH]; simpl; intros H; [reflexivity|].
  assert (N.eqb d c = false) as ->
    by (apply N.eqb_neq; intros ->; apply H; now left).
  rewrite IH; [reflexivity|]. intros Hin. apply H. now right.
Qed.

Lemma remove_first_present (c : char) (before rest : jsstring) :
  ~ In c before -> remove_first c (before ++ c :: rest) = before ++ rest.
Proof.
  induction before as [|d before IH]; simpl; intros H.
  - now rewrite N.eqb_refl.
  - assert (N.eqb d c = false) as ->
      by (apply N.eqb_neq; intros ->; apply H; now left).
    rewrite IH; [reflexivity|]. intros Hin. apply H. now right.
Qed.

Section QueryFacts.

Variable formatNumber : Z -> jsstring.

(** X19. [searchSeason] builds six queries for every distinct title among
    the title, the English title and, when Latin, the transliterated original
    title: six, twelve or eighteen queries.  Only the first exclamation mark
    of a title is taken out: a title without one is used as it is, and
    [before!rest] is searched as [before rest] joined, whatever [rest]
    holds. *)
Theorem searchSeason_queries_shape
    (tvShow_title enTVShow_title tvShow_originalTitle : jsstring)
    (seasonNumber : Z) :
  let titles := titles_of tvShow_title enTVShow_title tvShow_originalTitle in
  let queries :=
    searchSeason_queries formatNumber tvShow_title enTVShow_title
      tvShow_originalTitle seasonNumber in
  length queries = (6 * length (Lodash.uniq titles))%nat
  /\ (6 <= length queries <= 18)%nat
  /\ (forall query,
        In query queries
        <-> exists title0,
              In title0 titles
              /\ In query (season_queries_of formatNumber seasonNumber
                             (remove_first 33%N title0)))
  /\ (forall title0,
        In title0 titles -> ~ In 33%N title0 ->
        incl (season_queries_of formatNumber seasonNumber title0) queries)
  /\ (forall before rest,
        In (before ++ 33%N :: rest) titles -> ~ In 33%N before ->
        incl (season_queries_of formatNumber seasonNumber (before ++ rest))
             queries).
Proof.
  intros titles queries.
  assert (length queries = (6 * length (Lodash.uniq titles))%nat) as Hlen.
  { unfold queries, searchSeason_queries. fold titles.
    rewrite (@concat_map_length _ _ _ 6) by (intros; reflexivity).
    now rewrite length_map. }
  assert (forall query,
        In query queries
        <-> exists title0,
              In title0 titles
              /\ In query (season_queries_of formatNumber seasonNumber
                             (remove_first 33%N title0))) as Hin.
  { intros query. unfold queries, searchSeason_queries. fold titles.
    rewrite in_concat. split.
    - intros (l & Hl & Hq). rewrite map_map in Hl. apply in_map_iff in Hl.
      destruct Hl as (title0 & <- & Ht). apply (proj1 (uniq_In _ _)) in Ht.
      exists title0. split; [exact Ht | exact Hq].
    - intros (title0 & Ht & Hq).
      exists (season_queries_of formatNumber seasonNumber
                (remove_first 33%N title0)).
      split; [|assumption]. rewrite map_map. apply in_map_iff.
      exists title0. split; [reflexivity | now apply uniq_In]. }
  split; [exact Hlen|]. split; [|split; [exact Hin|split]].
  - pose proof (uniq_titles_of tvShow_title enTVShow_title tvShow_originalTitle).
    fold titles in H. lia.
  - intros title0 Ht Hno query Hq. apply Hin. exists title0.
    split; [assumption|]. now rewrite remove_first_absent.
  - intros before rest Ht Hno query Hq. apply Hin.
    exists (before ++ 33%N :: rest).
    split; [assumption|]. now rewrite remove_first_present.
Qed.

(** X20. [searchEpisode] builds six queries for every distinct title among
    the title, the English title and, when Latin, the transliterated original
    title: six, twelve or eighteen queries, each of which starts with the
    title as it is, exclamation marks included. *)
Theorem searchEpisode_queries_shape
    (tvShow_title enTVShow_title tvShow_originalTitle : jsstring)
    (seasonNumber episodeNumber : Z) :
  let titles := titles_of tvShow_title enTVShow_title tvShow_originalTitle in
  let queries :=
    searchEpisode_queries formatNumber tvShow_title enTVShow_title
      tvShow_originalTitle seasonNumber episodeNumber in
  length queries = (6 * length (Lodash.uniq titles))%nat
  /\ (6 <= length queries <= 18)%nat
  /\ (forall query,
        In query queries
        <-> exists title0,
              In title0 titles
              /\ In query (episode_queries_of formatNumber seasonNumber
                             episodeNumber title0))
  /\ (forall query,
        In query queries ->
        exists title0 rest,
          In title0 titles /\ query = title0 ++ Js.lit " S" ++ rest).
Proof.
  intros titles queries.
  assert (length queries = (6 * length (Lodash.uniq titles))%nat) as Hlen.
  { unfold queries, searchEpisode_queries. fold titles.
    now rewrite (@concat_map_length _ _ _ 6) by (intros; reflexivity). }
  assert (forall query,
        In query queries
        <-> exists title0,
              In title0 titles
              /\ In query (episode_queries_of formatNumber seasonNumber
                             episodeNumber title0)) as Hin.
  { intros query. unfold queries, searchEpisode_queries. fold titles.
    rewrite in_concat. split.
    - intros (l & Hl & Hq). apply in_map_iff in Hl.
      destruct Hl as (title0 & <- & Ht). apply (proj1 (uniq_In _ _)) in Ht.
      exists title0. split; [exact Ht | exact Hq].
    - intros (title0 & Ht & Hq).
      exists (episode_queries_of formatNumber seasonNumber episodeNumber title0).
      split; [|assumption]. apply in_map_iff.
      exists title0. split; [reflexivity | now apply uniq_In]. }
  split; [exact Hlen|]. split; [|split; [exact Hin|]].
  - pose proof (uniq_titles_of tvShow_title enTVShow_title tvShow_originalTitle).
    fold titles in H. lia.
  - intros query Hq. apply Hin in Hq. destruct Hq as (title0 & Ht & Hq).
    exists title0. unfold episode_queries_of in Hq. simpl in Hq.
    destruct Hq as [<-|[<-|[<-|[<-|[<-|[<-|[]]]]]]]; eexists;
      (split; [exact Ht|]); reflexivity.
Qed.

End QueryFacts.

(** ** The entry points *)

Section EntryPointFacts.

Context {host : Host}.


Lemma successes_In {A : Type} (tasks : list (Settled (list A))) (x : A) :
  In x (concat (keep_truthy (successes_of tasks))) ->
  exists l, In (Fulfilled l) tasks /\ In x l.
Proof.
  induction tasks as [|task tasks IH]; simpl; intros H; [contradiction|].
  destruct task as [l|e|]; simpl in H.
  - apply in_app_or in H. destruct H as [H|H].
    + exists l. split; [now left | assumption].
    + destruct (IH H) as (l' & Hl' & Hx). exists l'. split; [now right | assumption].
  - destruct (IH H) as (l' & Hl' & Hx). exists l'. split; [now right | assumption].
  - destruct (IH H) as (l' & Hl' & Hx). exists l'. split; [now right | assumption].
Qed.

(** Whatever [search] returns was returned by [searchIndexer] for one of the
    indexers. *)
Lemma search_result_origin (indexers : list JackettIndexer)
    (queries : list jsstring) (opts : Options)
    (results : list (option Candidate)) (c : Candidate) :
  search indexers queries opts = Return results ->
  In (Some c) results ->
  exists indexer0,
    In indexer0 indexers /\ In c (searchIndexer queries (Some indexer0) opts).
Proof.
  unfold search, search_settled. intros Hs Hin.
  set (tasks := List.map _ indexers) in Hs.
  assert (In c (concat (keep_truthy (successes_of tasks)))) as Hc.
  { unfold PromiseRaceAll in Hs. destruct tasks as [|t ts] eqn:Et.
    - inversion Hs; subst.
      destruct (or_default (withoutFilter opts) false); simpl in Hin;
        [contradiction | destruct Hin as [H|[]]; discriminate].
    - destruct (forallb is_rejected (t :: ts)).
      + unfold search_catch in Hs.
        destruct (errors_of (t :: ts)) as [|first rest]; [discriminate|].
        destruct (Js.eqb (message first) noResultsError);
          [|discriminate]. inversion Hs; subst. contradiction.
      + inversion Hs; subst. clear Hs.
        assert (In c (orderBy (concat (keep_truthy (successes_of (t :: ts))))))
          as Ho.
        { destruct (or_default (withoutFilter opts) false).
          - apply in_map_iff in Hin. destruct Hin as (c' & E & Hc').
            now inversion E; subst.
          - destruct Hin as [H|[]].
            apply (nth_error_In _ 0). exact H. }
        eapply Permutation_in; [|exact Ho].
        apply orderBy_sorted_permutation. }
  apply successes_In in Hc. destruct Hc as (l & Hl & Hx).
  unfold tasks in Hl. apply in_map_iff in Hl. destruct Hl as (i & E & Hi).
  exists i. split; [assumption|].
  destruct (fate i); [|discriminate|discriminate].
  inversion E; subst. exact Hx.
Qed.

(** X22. Whatever the indexers do, a candidate that [searchMovie] or
    [searchEpisode] returns is below the size bound, has non-negative
    seeders that outnumber its peers, has a tag of positive score, and can be
    downloaded. *)
Theorem automated_result_acceptable (formatNumber : Z -> jsstring)
    (indexers : list JackettIndexer) (maxSize0 : Z)
    (title1 title2 title3 year : jsstring) (seasonNumber episodeNumber : Z)
    (results : list (option Candidate)) (c : Candidate) :
  searchMovie indexers maxSize0 title1 title2 year = Return results
  \/ searchEpisode formatNumber indexers maxSize0 title1 title2 title3
       seasonNumber episodeNumber = Return results ->
  In (Some c) results ->
  (size c < maxSize0)%Z
  /\ (0 <= seeders c)%Z
  /\ (peers c < seeders c)%Z
  /\ (0 < score (tag c))%Z
  /\ Js.truthy_opt (downloadLink c) = true.
Proof.
  intros Hs Hin.
  assert (exists queries indexer0,
            In c (searchIndexer queries (Some indexer0)
                    {| maxSize := Some maxSize0; isSeason := None;
                       withoutFilter := None |})) as (queries & i & Hc).
  { destruct Hs as [Hs|Hs].
    - unfold searchMovie, searchEpisode in Hs.
      apply search_result_origin with (c := c) in Hs; [|exact Hin].
      destruct Hs as (i & _ & Hc).
      now exists (searchMovie_queries title1 title2 year), i.
    - unfold searchMovie, searchEpisode in Hs.
      apply search_result_origin with (c := c) in Hs; [|exact Hin].
      destruct Hs as (i & _ & Hc).
      now exists (searchEpisode_queries formatNumber title1 title2 title3
                    seasonNumber episodeNumber), i. }
  pose proof Hc as Hl. apply searchIndexer_from_linked_hit in Hl.
  destruct Hl as (hit & _ & _ & _ & Hd & _).
  unfold searchIndexer in Hc. apply filter_In in Hc. destruct Hc as [_ Hacc].
  simpl in Hacc. unfold acceptable, hasAcceptableSize, hasSeeders, hasTag, below in Hacc.
  rewrite !andb_true_iff, Z.leb_le, !Z.ltb_lt in Hacc. tauto.
Qed.

End EntryPointFacts.

(** ** The episode range pattern *)

Lemma In_lang_Star_Class (p : char -> bool) (w : jsstring) :
  Regex.In_lang (Regex.Star (Regex.Class p)) w
  <-> Forall (fun c => p c = true) w.
Proof.
  split.
  - intros H. remember (Regex.Star (Regex.Class p)) as r eqn:Er.
    induction H as [| | | | | | |r0 u v Hu _ Hv IH]; try discriminate.
    + constructor.
    + inversion Er; subst. inversion Hu; subst. simpl.
      constructor; [assumption | now apply IH].
  - induction 1 as [|c w Hc _ IH]; [constructor|].
    change (c :: w) with ([c] ++ w). constructor; [now constructor | exact IH].
Qed.

Lemma In_lang_digits (w : jsstring) :
  Regex.In_lang (Regex.Plus (Regex.Class Js.is_digit)) w
  <-> w <> [] /\ Forall (fun c => Js.is_digit c = true) w.
Proof.
  unfold Regex.Plus. split.
  - intros H. inversion H as [| | |? ? u v Hu Hv| | | |]; subst.
    inversion Hu; subst. apply In_lang_Star_Class in Hv.
    split; [discriminate | now constructor].
  - intros [Hne H]. destruct w as [|c w]; [congruence|].
    inversion H; subst. change (c :: w) with ([c] ++ w).
    constructor; [now constructor | now apply In_lang_Star_Class].
Qed.

Lemma In_lang_e_number (w : jsstring) :
  Regex.In_lang e_number_pattern w <-> is_e_number w.
Proof.
  unfold e_number_pattern, is_e_number. split.
  - intros H. apply In_lang_Chr_Cat in H. destruct H as (v & -> & Hv).
    inversion Hv as [| | |? ? o number Ho Hn| | | |]; subst.
    apply In_lang_digits in Hn. destruct Hn as [Hne Hd].
    exists number. split; [assumption|]. split; [assumption|].
    inversion Ho as [| | | |? ? ? Hp|? ? ? He| |]; subst.
    + inversion Hp; subst. now right.
    + inversion He; subst. now left.
  - intros (number & Hne & Hd & [->| ->]).
    + change (Js.lit "e" ++ number) with ([101%N] ++ ([] ++ number)).
      constructor; [constructor|]. constructor.
      * apply Regex.L_alt_r. constructor.
      * now apply In_lang_digits.
    + change (Js.lit "ep" ++ number) with ([101%N] ++ ([112%N] ++ number)).
      constructor; [constructor|]. constructor.
      * apply Regex.L_alt_l. constructor.
      * now apply In_lang_digits.
Qed.

Lemma episodeRangePattern_language (w : jsstring) :
  Regex.In_lang episodeRangePattern w
  <-> exists first spaces second,
        w = first ++ spaces ++ second
        /\ is_e_number first
        /\ Forall (fun c => Js.is_space c = true) spaces
        /\ is_e_number second.
Proof.
  change episodeRangePattern
    with (Regex.Cat e_number_pattern
            (Regex.Cat (Regex.Star (Regex.Class Js.is_space)) e_number_pattern)).
  split.
  - intros H. inversion H as [| | |? ? first v Hf Hv| | | |]; subst.
    inversion Hv as [| | |? ? spaces second Hs Hsec| | | |]; subst.
    exists first, spaces, second. split; [reflexivity|].
    split; [now apply In_lang_e_number|].
    split; [now apply In_lang_Star_Class | now apply In_lang_e_number].
  - intros (first & spaces & second & -> & Hf & Hs & Hsec).
    constructor; [now apply In_lang_e_number|].
    constructor; [now apply In_lang_Star_Class | now apply In_lang_e_number].
Qed.

Lemma episodeRangePattern_has_range (title0 : jsstring) :
  Regex.matches episodeRangePattern title0 = true <-> has_episode_range title0.
Proof.
  rewrite matches_substring. unfold has_episode_range. split.
  - intros (before & w & rest & -> & Hw).
    apply episodeRangePattern_language in Hw.
    destruct Hw as (first & spaces & second & -> & Hf & Hs & Hsec).
    exists before, first, spaces, second, rest.
    split; [now rewrite <- !app_assoc | auto].
  - intros (before & first & spaces & second & rest & -> & Hf & Hs & Hsec).
    exists before, (first ++ spaces ++ second), rest.
    split; [now rewrite <- !app_assoc|].
    apply episodeRangePattern_language. now exists first, spaces, second.
Qed.

(** X23. The pattern of episode ranges is not anchored either: a title
    matches it exactly when it holds, somewhere, [e] or [ep] with a number,
    then nothing or white space, then again [e] or [ep] with a number. *)
Theorem episodeRangePattern_ranges (title0 : jsstring) :
  Regex.matches episodeRangePattern title0 = true <-> has_episode_range title0.
Proof. apply episodeRangePattern_has_range. Qed.

(** ** The acceptance filter within [searchIndexer] and [search] *)

Lemma is_episode_indicator_mark (part : jsstring) :
  is_episode_indicator part -> has_episode_mark part.
Proof.
  intros [->|(number & Hne & Hd & [->| ->])].
  - left. now exists [], (Js.lit "isode").
  - destruct number as [|d number]; [congruence|].
    inversion Hd as [|? ? Hd1 _]; subst.
    right. exists [], d, number. split; [reflexivity | assumption].
  - left. now exists [], number.
Qed.

(** The callback of the filter in a season request, with the two patterns
    read as what they match. *)
Lemma acceptable_season_iff (maxSize0 : option Z) (c : Candidate) :
  acceptable maxSize0 true false c = true
  <-> (match maxSize0 with
       | Some bound => (size c < bound)%Z
       | None => True
       end)
      /\ (0 <= seeders c)%Z
      /\ (peers c < seeders c)%Z
      /\ (has_episode_range (normalizedTitle c)
          \/ forall part, In part (normalizedTitleParts c) ->
                          ~ has_episode_mark part).
Proof.
  unfold acceptable, hasAcceptableSize, hasSeeders, below.
  rewrite !andb_true_iff, negb_true_iff, isEpisode_false,
    episodeRangePattern_has_range, Z.leb_le, Z.ltb_lt.
  destruct maxSize0 as [bound|]; [rewrite Z.ltb_lt|]; intuition.
Qed.

Section FilterInSearch.

Context {host : Host}.

(** What [searchIndexer] returns, in two parts: the candidate is the
    normalization of the first hit of the answers with its identifier, a hit
    that has a link or a magnet URI, and it satisfies the callback of the
    last [filter]. *)
Lemma searchIndexer_In (queries : list jsstring)
    (indexer0 : option JackettIndexer) (opts : Options) (c : Candidate) :
  In c (searchIndexer queries indexer0 opts)
  <-> (exists hit,
         find (fun h => Js.eqb (Guid h) (id c))
              (concat (rawResults queries indexer0)) = Some hit
         /\ hasLink hit = true
         /\ c = formatSearchResult hit qualityParams preferredTags)
      /\ acceptable (maxSize opts) (or_default (isSeason opts) false)
           (or_default (withoutFilter opts) false) c = true.
Proof.
  unfold searchIndexer. rewrite filter_In, in_map_iff. split.
  - intros [(hit & <- & Hin) Hacc]. split; [|assumption].
    apply filter_In in Hin. destruct Hin as [Hin Hlink].
    apply uniqBy_In_first in Hin.
    exists hit. repeat split; assumption.
  - intros [(hit & Hfind & Hlink & ->) Hacc]. split; [|assumption].
    exists hit. split; [reflexivity|].
    apply filter_In. split; [|assumption].
    apply uniqBy_In_first. exact Hfind.
Qed.

(** C3. In a search request that is neither for a season nor manual,
    [searchIndexer] returns a candidate exactly when it is a normalized
    candidate of the answers (the first hit with its identifier, which has a
    link or a magnet URI, normalized) and its size is below the maximum
    acceptable size, its seeders are non-negative and more than its peers,
    and the score of its tag is positive.  Whatever [search] returns for such
    a request was returned by [searchIndexer] for one of the indexers, and so
    satisfies the four conditions. *)
Theorem searchIndexer_accepts_non_season (queries : list jsstring)
    (opts : Options) :
  or_default (isSeason opts) false = false ->
  or_default (withoutFilter opts) false = false ->
  (forall indexer0 c,
     In c (searchIndexer queries indexer0 opts)
     <-> (exists hit,
            find (fun h => Js.eqb (Guid h) (id c))
                 (concat (rawResults queries indexer0)) = Some hit
            /\ hasLink hit = true
            /\ c = formatSearchResult hit qualityParams preferredTags)
         /\ (match maxSize opts with
             | Some bound => (size c < bound)%Z
             | None => True
             end)
         /\ (0 <= seeders c)%Z
         /\ (peers c < seeders c)%Z
         /\ (0 < score (tag c))%Z)
  /\ (forall indexers results c,
        search indexers queries opts = Return results ->
        In (Some c) results ->
        (exists indexer0,
           In indexer0 indexers
           /\ In c (searchIndexer queries (Some indexer0) opts))
        /\ (match maxSize opts with
            | Some bound => (size c < bound)%Z
            | None => True
            end)
        /\ (0 <= seeders c)%Z
        /\ (peers c < seeders c)%Z
        /\ (0 < score (tag c))%Z).
Proof.
  intros Hs Hw.
  assert (forall indexer0 c,
     In c (searchIndexer queries indexer0 opts)
     <-> (exists hit,
            find (fun h => Js.eqb (Guid h) (id c))
                 (concat (rawResults queries indexer0)) = Some hit
            /\ hasLink hit = true
            /\ c = formatSearchResult hit qualityParams preferredTags)
         /\ (match maxSize opts with
             | Some bound => (size c < bound)%Z
             | None => True
             end)
         /\ (0 <= seeders c)%Z
         /\ (peers c < seeders c)%Z
         /\ (0 < score (tag c))%Z) as Hmember.
  { intros indexer0 c.
    rewrite searchIndexer_In, Hs, Hw, acceptable_non_season. reflexivity. }
  split; [exact Hmember|].
  intros indexers results c Hsearch Hin.
  pose proof Hsearch as Ho.
  apply search_result_origin with (c := c) in Ho; [|exact Hin].
  destruct Ho as (indexer0 & Hi & Hc).
  split; [now exists indexer0|].
  apply Hmember in Hc. tauto.
Qed.

(** C4. In a season request that is not manual, [searchIndexer] returns a
    candidate exactly when it is a normalized candidate of the answers, its
    size and seeders are acceptable, and either its title holds an episode
    range or none of its title parts holds an episode mark.  The pattern of
    the episode test is not anchored: a title part that is [e] or [ep] with a
    number, or [episode], holds a mark, and so does [s02e05].  Hence a
    candidate with a title part that holds a mark and a title without episode
    range is never returned, and a candidate whose title parts are
    [show s02 e05 1080p] is never returned; a normalized candidate whose title
    holds an episode range, as when its title parts are
    [show s02 e01e10 1080p], is returned exactly when its size and seeders
    are acceptable.  Whatever [search] returns for such a request has an
    episode range in its title or no episode mark in its title parts. *)
Theorem searchIndexer_season_episodes (queries : list jsstring)
    (opts : Options) :
  isSeason opts = Some true ->
  or_default (withoutFilter opts) false = false ->
  (forall indexer0 c,
     In c (searchIndexer queries indexer0 opts)
     <-> (exists hit,
            find (fun h => Js.eqb (Guid h) (id c))
                 (concat (rawResults queries indexer0)) = Some hit
            /\ hasLink hit = true
            /\ c = formatSearchResult hit qualityParams preferredTags)
         /\ (match maxSize opts with
             | Some bound => (size c < bound)%Z
             | None => True
             end)
         /\ (0 <= seeders c)%Z
         /\ (peers c < seeders c)%Z
         /\ (has_episode_range (normalizedTitle c)
             \/ forall part, In part (normalizedTitleParts c) ->
                             ~ has_episode_mark part))
  /\ (forall part, is_episode_indicator part -> has_episode_mark part)
  /\ (forall indexer0 c part,
        In part (normalizedTitleParts c) -> has_episode_mark part ->
        ~ has_episode_range (normalizedTitle c) ->
        ~ In c (searchIndexer queries indexer0 opts))
  /\ (forall indexer0 c,
        normalizedTitleParts c = episode_tokens ->
        ~ In c (searchIndexer queries indexer0 opts))
  /\ (forall indexer0 hit,
        find (fun h => Js.eqb (Guid h) (Guid hit))
             (concat (rawResults queries indexer0)) = Some hit ->
        hasLink hit = true ->
        let c := formatSearchResult hit qualityParams preferredTags in
        has_episode_range (normalizedTitle c)
        \/ normalizedTitleParts c = season_pack_tokens ->
        (In c (searchIndexer queries indexer0 opts)
         <-> (match maxSize opts with
              | Some bound => (size c < bound)%Z
              | None => True
              end)
             /\ (0 <= seeders c)%Z
             /\ (peers c < seeders c)%Z))
  /\ (forall indexers results c,
        search indexers queries opts = Return results ->
        In (Some c) results ->
        has_episode_range (normalizedTitle c)
        \/ forall part, In part (normalizedTitleParts c) ->
                        ~ has_episode_mark part).
Proof.
  intros Hs Hw.
  assert (forall indexer0 c,
     In c (searchIndexer queries indexer0 opts)
     <-> (exists hit,
            find (fun h => Js.eqb (Guid h) (id c))
                 (concat (rawResults queries indexer0)) = Some hit
            /\ hasLink hit = true
            /\ c = formatSearchResult hit qualityParams preferredTags)
         /\ (match maxSize opts with
             | Some bound => (size c < bound)%Z
             | None => True
             end)
         /\ (0 <= seeders c)%Z
         /\ (peers c < seeders c)%Z
         /\ (has_episode_range (normalizedTitle c)
             \/ forall part, In part (normalizedTitleParts c) ->
                             ~ has_episode_mark part)) as Hmember.
  { intros indexer0 c.
    rewrite searchIndexer_In, Hs, Hw, acceptable_season_iff. reflexivity. }
  split; [exact Hmember|].
  split; [exact is_episode_indicator_mark|].
  split; [|split; [|split]].
  - intros indexer0 c part Hin Hmark Hrange Hc.
    apply Hmember in Hc. destruct Hc as (_ & _ & _ & _ & [Hr|Hnone]).
    + now apply Hrange.
    + now apply (Hnone part).
  - intros indexer0 c Htokens Hc.
    apply searchIndexer_In in Hc. rewrite Hs, Hw in Hc.
    destruct Hc as [(hit & _ & _ & ->) Hacc].
    pose proof (@acceptable_season_episodes (maxSize opts)
                  (formatSearchResult hit qualityParams preferredTags))
      as (_ & _ & Hreject & _).
    unfold or_default in Hacc.
    rewrite (Hreject eq_refl Htokens) in Hacc. discriminate.
  - intros indexer0 hit Hfind Hlink c Hpack.
    assert (has_episode_range (normalizedTitle c)) as Hrange.
    { destruct Hpack as [Hr|Htokens]; [exact Hr|].
      assert (In (Js.lit "e01e10") (titleParts (normalizedTitle c))) as Hin.
      { change (titleParts (normalizedTitle c)) with (normalizedTitleParts c).
        rewrite Htokens. simpl. auto. }
      apply titleParts_substring in Hin. destruct Hin as (before & rest & E).
      apply episodeRangePattern_has_range. rewrite E.
      apply matches_skip. apply matches_of_start. reflexivity. }
    rewrite Hmember. split.
    + tauto.
    + intros (Hsize & Hseeders & Hpeers).
      split; [now exists hit|]. tauto.
  - intros indexers results c Hsearch Hin.
    pose proof Hsearch as Ho.
    apply search_result_origin with (c := c) in Ho; [|exact Hin].
    destruct Ho as (indexer0 & _ & Hc).
    apply Hmember in Hc. tauto.
Qed.

End FilterInSearch.

(** ** The further properties at concrete inputs *)

Lemma not_In_char (c : char) (s : jsstring) :
  existsb (N.eqb c) s = false -> ~ In c s.
Proof.
  intros H Hin.
  assert (existsb (N.eqb c) s = true) as E
    by (apply existsb_exists; exists c; split; [assumption | apply N.eqb_refl]).
  congruence.
Defined.


(** The tokens of a release in 1080p against a rule for 2160p alone, and
    against the two rules. *)
Lemma parseQuality_first_rule_witness :
  Forall (fun part : jsstring => part <> []) movie_tokens
  /\ @parseQuality Run.services movie_tokens [quality_2160p]
     = {| label := Js.lit "unknown"; score := 0 |}
  /\ @parseQuality Run.services movie_tokens [quality_2160p; quality_1080p]
     = {| label := Js.lit "HD"; score := 2 |}.
Proof.
  assert (Forall (fun part : jsstring => part <> []) movie_tokens) as H
    by (repeat (apply Forall_cons; [discriminate|]); apply Forall_nil).
  split; [exact H|]. split.
  - apply (proj1 (@parseQuality_first_rule Run.services movie_tokens
                    [quality_2160p] H)).
    intros rule keyword [<-|[]] [<-|[<-|[]]];
      apply jsstring_mem_not_In; reflexivity.
  - apply (proj2 (@parseQuality_first_rule Run.services movie_tokens
                    [quality_2160p; quality_1080p] H)
             [quality_2160p] quality_1080p [] (Js.lit "1080P")).
    + reflexivity.
    + intros earlier keyword' [<-|[]] [<-|[<-|[]]];
        apply jsstring_mem_not_In; reflexivity.
    + now left.
    + apply jsstring_mem_In. reflexivity.
Defined.

Lemma titleParts_parts_witness :
  In (Js.lit "e05") (titleParts (Js.lit " show  s02 e05 "))
  /\ Js.lit "e05" <> []
  /\ ~ In 32%N (Js.lit "e05")
  /\ (exists c, In c (Js.lit "e05") /\ Js.is_space c = false)
  /\ exists before rest, Js.lit " show  s02 e05 " = before ++ Js.lit "e05" ++ rest.
Proof.
  assert (In (Js.lit "e05") (titleParts (Js.lit " show  s02 e05 "))) as H
    by (right; right; left; reflexivity).
  split; [exact H|]. exact (@titleParts_parts _ _ H).
Defined.

Lemma titleParts_join_witness :
  titleParts (Js.join [32%N] episode_tokens) = episode_tokens.
Proof.
  apply titleParts_join.
  repeat (apply Forall_cons;
          [ split; [ apply not_In_char; reflexivity
                   | eexists; split; [left; reflexivity | reflexivity] ] | ]).
  apply Forall_nil.
Defined.

Lemma searchIndexer_requests_fail_witness :
  @searchIndexer unreachable Run.queries (Some Run.indexerA) Run.manual = [].
Proof.
  apply (@searchIndexer_requests_fail unreachable).
  intros query _. reflexivity.
Defined.

(** The query of a movie, repeated. *)
Lemma searchIndexer_repeated_queries_witness :
  @searchIndexer Run.services (Run.queries ++ Run.queries) (Some Run.indexerB)
    Run.automatic
  = @searchIndexer Run.services Run.queries (Some Run.indexerB) Run.automatic.
Proof.
  apply (proj2 (proj2 (@searchIndexer_repeated_queries Run.services Run.queries
                         Run.queries (Some Run.indexerB) Run.automatic))).
  intros query H. exact H.
Defined.

Lemma search_manual_ranking_witness :
  exists ranked,
    @search Run.services [Run.indexerA; Run.indexerB] Run.queries Run.manual
    = Return (List.map Some ranked)
    /\ Permutation ranked
         (@all_candidates Run.services [Run.indexerA; Run.indexerB]
            Run.queries Run.manual)
    /\ StronglySorted ranks_no_lower ranked.
Proof.
  apply (@search_manual_ranking Run.services).
  - intros indexer0 _. reflexivity.
  - reflexivity.
Defined.

Lemma search_automatic_best_witness :
  exists best others,
    @search Run.services [Run.indexerA; Run.indexerB] Run.queries Run.automatic
    = Return [Some best]
    /\ Permutation (best :: others)
         (@all_candidates Run.services [Run.indexerA; Run.indexerB]
            Run.queries Run.automatic)
    /\ Forall (ranks_no_lower best) others.
Proof.
  apply (@search_automatic_best Run.services).
  - intros indexer0 _. reflexivity.
  - reflexivity.
  - vm_compute. discriminate.
Defined.

Lemma search_automatic_of_manual_witness :
  exists ranked,
    @search Run.services [Run.indexerA; Run.indexerB] Run.queries
      (manual_of Run.automatic)
    = Return (List.map Some ranked)
    /\ @search Run.services [Run.indexerA; Run.indexerB] Run.queries
         Run.automatic
       = Return [nth_error
                   (filter (acceptable (maxSize Run.automatic)
                              (or_default (isSeason Run.automatic) false) false)
                      ranked) 0].
Proof.
  apply (@search_automatic_of_manual Run.services).
  - intros indexer0 _. reflexivity.
  - reflexivity.
Defined.

(** With the tag [GROUP] configured, a release without it is rejected. *)
Lemma tags_in_the_filter_witness :
  acceptable (Some 1000%Z) false false
    (@formatSearchResult Run.services untagged Run.qualities Run.tags)
  = false.
Proof.
  apply (proj1 (proj2 (@tags_in_the_filter Run.services untagged Run.qualities
                         Run.tags (Some 1000%Z)))).
  - discriminate.
  - intros tag [<-|[]]. apply jsstring_mem_not_In. reflexivity.
Defined.

Lemma respond_sizes (indexer0 : option JackettIndexer) (query : jsstring)
    (hits : list JackettResult) (hit : JackettResult) :
  Run.respond indexer0 query = Some hits -> In hit hits -> (0 <= Size hit)%Z.
Proof.
  unfold Run.respond. intros H Hin.
  destruct indexer0 as [i|];
    [destruct (Js.eqb (indexer_id i) (Js.lit "a"))|];
    inversion H; subst; simpl in Hin;
    repeat (destruct Hin as [<-|Hin]; [simpl; lia|]); contradiction.
Defined.

Lemma searchSeason_without_episodes_witness :
  @searchSeason pad2 Run.services [Run.indexerA; Run.indexerB] 1000
    (Js.lit "Show") (Js.lit "Show") (Js.lit "Show") 2 0
  = Return [None].
Proof.
  apply (@searchSeason_without_episodes Run.services pad2).
  - intros indexer0 _. reflexivity.
  - exact respond_sizes.
Defined.

Lemma searchMovie_queries_sign_witness :
  isLatin (toLatin lyubov) = false
  /\ searchMovie_queries (Js.lit "Love") lyubov (Js.lit "2020")
     = [Js.lit "Love" ++ Js.lit " " ++ Js.lit "2020"].
Proof.
  apply (@searchMovie_queries_sign (Js.lit "Love") lyubov (Js.lit "2020")
           0x44C%N).
  - apply existsb_In. reflexivity.
  - apply existsb_In. reflexivity.
Defined.

Lemma searchMovie_queries_transliterated_witness :
  isLatin (toLatin brat) = true
  /\ searchMovie_queries (Js.lit "Brother") brat (Js.lit "1997")
     = [Js.lit "Brother" ++ Js.lit " " ++ Js.lit "1997";
        toLatin brat ++ Js.lit " " ++ Js.lit "1997"].
Proof.
  apply searchMovie_queries_transliterated.
  repeat (apply Forall_cons;
          [ left; split; [ apply jsstring_mem_In; reflexivity
                         | apply not_In_char; reflexivity ] | ]).
  apply Forall_nil.
Defined.


Lemma automated_result_acceptable_witness :
  @searchMovie Run.services [Run.indexerA; Run.indexerB] 1000
    (Js.lit "Movie") (Js.lit "Movie") (Js.lit "2020")
  = Return [Some Run.good_candidate]
  /\ (size Run.good_candidate < 1000)%Z
  /\ (0 <= seeders Run.good_candidate)%Z
  /\ (peers Run.good_candidate < seeders Run.good_candidate)%Z
  /\ (0 < score (tag Run.good_candidate))%Z
  /\ Js.truthy_opt (downloadLink Run.good_candidate) = true.
Proof.
  assert (@searchMovie Run.services [Run.indexerA; Run.indexerB] 1000
            (Js.lit "Movie") (Js.lit "Movie") (Js.lit "2020")
          = Return [Some Run.good_candidate]) as H
    by (vm_compute; reflexivity).
  split; [exact H|].
  apply (@automated_result_acceptable Run.services pad2
           [Run.indexerA; Run.indexerB] 1000 (Js.lit "Movie") (Js.lit "Movie")
           (Js.lit "Movie") (Js.lit "2020") 1 1 [Some Run.good_candidate]
           Run.good_candidate).
  - left. exact H.
  - now left.
Defined.

(** ** The acceptance filter at concrete inputs *)

(** The movie request of the scenario: indexer B returns its release, indexer
    A does not return the release that is too large, and what the search
    returns satisfies the conditions. *)
Lemma searchIndexer_accepts_non_season_witness :
  In Run.good_candidate
     (@searchIndexer Run.services Run.queries (Some Run.indexerB) Run.automatic)
  /\ ~ In (Run.candidate_of Run.too_large)
          (@searchIndexer Run.services Run.queries (Some Run.indexerA)
             Run.automatic)
  /\ @search Run.services [Run.indexerA; Run.indexerB] Run.queries Run.automatic
     = Return [Some Run.good_candidate]
  /\ (size Run.good_candidate < 1000)%Z
  /\ (0 <= seeders Run.good_candidate)%Z
  /\ (peers Run.good_candidate < seeders Run.good_candidate)%Z
  /\ (0 < score (tag Run.good_candidate))%Z.
Proof.
  pose proof (@searchIndexer_accepts_non_season Run.services Run.queries
                Run.automatic eq_refl eq_refl) as [Hmember Hsearch].
  assert (@search Run.services [Run.indexerA; Run.indexerB] Run.queries
            Run.automatic
          = Return [Some Run.good_candidate]) as Hrun
    by (vm_compute; reflexivity).
  split; [|split; [|split; [exact Hrun|]]].
  - apply (proj2 (Hmember (Some Run.indexerB) Run.good_candidate)).
    split.
    + exists Run.good. repeat split.
    + repeat split; vm_compute; first [reflexivity | discriminate].
  - intros H. apply (proj1 (Hmember _ _)) in H.
    destruct H as (_ & Hsize & _). vm_compute in Hsize. discriminate.
  - exact (proj2 (Hsearch [Run.indexerA; Run.indexerB]
                    [Some Run.good_candidate] Run.good_candidate Hrun
                    (or_introl eq_refl))).
Defined.

(** A season request against a backend that lists an episode, the same
    episode written [S02E05], and a pack [E01E10]: the two episodes are not
    returned, the pack is, and it is what the search returns. *)
Lemma searchIndexer_season_episodes_witness :
  ~ In single_episode
       (@searchIndexer season_services Run.queries (Some Run.indexerB)
          season_request)
  /\ ~ In joined_episode
          (@searchIndexer season_services Run.queries (Some Run.indexerB)
             season_request)
  /\ In season_pack
        (@searchIndexer season_services Run.queries (Some Run.indexerB)
           season_request)
  /\ @search season_services [Run.indexerB] Run.queries season_request
     = Return [Some season_pack]
  /\ (has_episode_range (normalizedTitle season_pack)
      \/ forall part, In part (normalizedTitleParts season_pack) ->
                      ~ has_episode_mark part).
Proof.
  pose proof (@searchIndexer_season_episodes season_services Run.queries
                season_request eq_refl eq_refl)
    as (_ & _ & Hmark & Htokens & Hpack & Hsearch).
  assert (@search season_services [Run.indexerB] Run.queries season_request
          = Return [Some season_pack]) as Hrun
    by (vm_compute; reflexivity).
  split; [|split; [|split; [|split; [exact Hrun|]]]].
  - apply Htokens. reflexivity.
  - apply (Hmark (Some Run.indexerB) joined_episode (Js.lit "s02e05")).
    + right. left. reflexivity.
    + right. exists (Js.lit "s02"), 48%N, (Js.lit "5").
      split; reflexivity.
    + intros Hr. apply episodeRangePattern_has_range in Hr.
      vm_compute in Hr. discriminate.
  - apply (proj2 (Hpack (Some Run.indexerB) season_pack_hit eq_refl eq_refl
                    (or_intror eq_refl))).
    repeat split; vm_compute; first [reflexivity | discriminate].
  - exact (Hsearch [Run.indexerB] [Some season_pack] season_pack Hrun
             (or_introl eq_refl)).
Defined.
